(** * Hint propagation of the serializer for background compilation

    A shallow embedding of [src/compiler/serializer-for-background-compilation.cc]:
    the [Hints] sets, the per-function [Environment], the bytecode walk with
    its jump-target joins, the call processing with its child serializers,
    and the feedback hooks, followed by the properties established for them. *)

From Equations Require Import Equations.
From stdpp Require Import gmap list sorting.
From Stdlib Require Import ZArith.

Local Open Scope Z_scope.
#[local] Set Warnings "-clear-no-such-hyp".

(** ** Handles and hints *)

(** A [Handle<T>] is compared by the address of its location: the sets of
    the source order handles with [HandleComparator].  A handle is modelled
    by that address. *)
Definition Handle : Type := N.

(** [struct FunctionBlueprint { shared; feedback_vector; }]. *)
Record FunctionBlueprint : Type := MkBlueprint {
  shared : Handle;
  feedback_vector : Handle;
}.

#[global] Instance FunctionBlueprint_eq_dec : EqDecision FunctionBlueprint.
Proof. solve_decision. Defined.

#[global] Instance FunctionBlueprint_countable : Countable FunctionBlueprint.
Proof.
  refine (inj_countable' (fun b => (shared b, feedback_vector b))
                         (fun p => MkBlueprint p.1 p.2) _).
  by intros [].
Defined.

(** [class Hints]: three sets, one per kind of hint. *)
Record Hints : Type := MkHints {
  constants : gset Handle;
  maps : gset Handle;
  function_blueprints : gset FunctionBlueprint;
}.

(** The constructor [Hints::Hints] builds three empty sets. *)
#[global] Instance Hints_empty : Empty Hints := MkHints ∅ ∅ ∅.

#[global] Instance Hints_eq_dec : EqDecision Hints.
Proof. solve_decision. Defined.

Definition AddConstant (constant : Handle) (h : Hints) : Hints :=
  MkHints ({[constant]} ∪ constants h) (maps h) (function_blueprints h).

Definition AddMap (map : Handle) (h : Hints) : Hints :=
  MkHints (constants h) ({[map]} ∪ maps h) (function_blueprints h).

Definition AddFunctionBlueprint (b : FunctionBlueprint) (h : Hints) : Hints :=
  MkHints (constants h) (maps h) ({[b]} ∪ function_blueprints h).

(** A [ZoneSet] is iterated in the order of its comparator: handles by
    address, blueprints by their two handles. *)
Definition ordered (s : gset Handle) : list Handle :=
  merge_sort N.le (elements s).

Definition blueprint_le (a b : FunctionBlueprint) : Prop :=
  (shared a < shared b)%N ∨
  (shared a = shared b ∧ (feedback_vector a <= feedback_vector b)%N).

#[global] Instance blueprint_le_dec a b : Decision (blueprint_le a b).
Proof. unfold blueprint_le. apply _. Defined.

Definition ordered_blueprints (s : gset FunctionBlueprint)
  : list FunctionBlueprint :=
  merge_sort blueprint_le (elements s).

(** [Hints::Add]: three loops of insertions into the receiver [h]. *)
Definition Add (other : Hints) (h : Hints) : Hints :=
  let h1 := foldl (fun acc x => AddConstant x acc) h (ordered (constants other)) in
  let h2 := foldl (fun acc x => AddMap x acc) h1 (ordered (maps other)) in
  foldl (fun acc x => AddFunctionBlueprint x acc) h2
        (ordered_blueprints (function_blueprints other)).

Definition IsEmpty (h : Hints) : bool :=
  bool_decide (constants h = ∅) && bool_decide (maps h = ∅)
  && bool_decide (function_blueprints h = ∅).

(** [Hints::Clear]. *)
Definition Clear (_ : Hints) : Hints := ∅.

(** [SetIncludes], [Hints::Includes] and [Hints::Equals]. *)
Definition Includes (h other : Hints) : bool :=
  bool_decide (constants other ⊆ constants h)
  && bool_decide (function_blueprints other ⊆ function_blueprints h)
  && bool_decide (maps other ⊆ maps h).

Definition Equals (h other : Hints) : bool :=
  Includes h other && Includes other h.

(** ** Outcomes of a run

    A failed [CHECK], a failed [DCHECK] of a debug build, [UNREACHABLE] and
    an access outside a vector end the process; each site has its name. *)
Inductive Failure : Type :=
| CompilationSubject_CHECK_has_feedback_vector
| Kill_DCHECK_not_dead
| Kill_DCHECK_dead
| Revive_DCHECK_dead
| Revive_DCHECK_not_dead
| accumulator_hints_CHECK_LT
| register_hints_CHECK_LT
| RegisterToLocalIndex_DCHECK_not_closure
| vector_index_out_of_bounds
| Environment_DCHECK_new_target_empty
| Merge_CHECK_EQ_parameter_count
| Merge_CHECK_EQ_register_count
| Merge_SLOW_DCHECK_closure_hints
| Merge_SLOW_DCHECK_return_value_hints
| Merge_CHECK_not_dead
| Merge_CHECK_EQ_size
| Serializer_DCHECK_not_osr
| BailoutOnUninitialized_DCHECK_not_dead
| BailoutOnUninitialized_DCHECK_EQ_kind
| ExceptionHandlerMatcher_CHECK_not_done
| RunChildSerializer_DCHECK_LT_arguments
| pop_back_of_empty_vector
| GetHeapObjectFeedback_DCHECK_valid
| ProcessCallOrConstruct_DCHECK_not_inlineable
| ProcessApiCall_CHECK_GE_arguments
| ProcessBuiltinCall_DCHECK_builtin_id
| ProcessBuiltinCall_CHECK_GE_arguments
| GetRelevantReceiverMaps_DCHECK_not_deprecated
| ProcessFeedbackMapsForNamedAccess_DCHECK_not_empty
| GetGlobalAccessFeedback_CHECK_EQ_kind
| UNREACHABLE.

Inductive Outcome (A : Type) : Type :=
| Done (a : A)
| Fatal (f : Failure)
| OutOfFuel.
Arguments Done {A} a.
Arguments Fatal {A} f.
Arguments OutOfFuel {A}.

#[global] Instance Outcome_ret : MRet Outcome := fun A a => Done a.
#[global] Instance Outcome_bind : MBind Outcome := fun A B f m =>
  match m with
  | Done a => f a
  | Fatal e => Fatal e
  | OutOfFuel => OutOfFuel
  end.

(** [DCHECK] is compiled in debug builds only; [SLOW_DCHECK] needs
    [ENABLE_SLOW_DCHECKS] and the flag [enable_slow_asserts].  Both macros
    are defined outside this file, so the build is a parameter. *)
Record BuildConfig : Type := MkBuildConfig {
  debug : bool;
  slow_dchecks : bool;
}.

Definition CHECK (site : Failure) (cond : bool) : Outcome unit :=
  if cond then Done tt else Fatal site.

Definition DCHECK (cfg : BuildConfig) (site : Failure) (cond : bool)
  : Outcome unit :=
  if debug cfg then CHECK site cond else Done tt.

Definition SLOW_DCHECK (cfg : BuildConfig) (site : Failure) (cond : bool)
  : Outcome unit :=
  if slow_dchecks cfg then CHECK site cond else Done tt.

(** ** Registers

    [interpreter::Register] wraps an [int] index.  Its predicates are
    declared in [src/interpreter/bytecode-register.h], which is not among
    the sources at hand: they are parameters of the development. *)
Record Register : Type := MkRegister { index : Z }.

Class RegisterLayout : Type := {
  is_valid : Register -> bool;
  is_function_closure : Register -> bool;
  is_current_context : Register -> bool;
  is_parameter : Register -> bool;
  ToParameterIndex : Register -> Z -> Z;
}.

(** ** The environment *)

(** The fields of [class Environment].  The two counts are the [int]
    counts of a [BytecodeArray]; a vector size is read off them with
    [Z.to_nat]. *)
Record Environment : Type := MkEnvironment {
  function_ : FunctionBlueprint;
  parameter_count_ : Z;
  register_count_ : Z;
  closure_hints_ : Hints;
  return_value_hints_ : Hints;
  ephemeral_hints_ : list Hints;
}.

Definition accumulator_index (e : Environment) : Z :=
  parameter_count_ e + register_count_ e.
Definition current_context_index (e : Environment) : Z :=
  accumulator_index e + 1.
Definition ephemeral_hints_size (e : Environment) : Z :=
  current_context_index e + 1.

Definition with_closure_hints (h : Hints) (e : Environment) : Environment :=
  MkEnvironment (function_ e) (parameter_count_ e) (register_count_ e)
                h (return_value_hints_ e) (ephemeral_hints_ e).
Definition with_return_value_hints (h : Hints) (e : Environment) : Environment :=
  MkEnvironment (function_ e) (parameter_count_ e) (register_count_ e)
                (closure_hints_ e) h (ephemeral_hints_ e).
Definition with_ephemeral_hints (v : list Hints) (e : Environment) : Environment :=
  MkEnvironment (function_ e) (parameter_count_ e) (register_count_ e)
                (closure_hints_ e) (return_value_hints_ e) v.

Definition IsDead (e : Environment) : bool :=
  match ephemeral_hints_ e with [] => true | _ => false end.

(** A [Hints&] handed out by an accessor names one of the environment's
    hint slots. *)
Inductive HintsRef : Type :=
| ClosureRef
| EphemeralRef (i : nat).

Definition deref (r : HintsRef) (e : Environment) : Hints :=
  match r with
  | ClosureRef => closure_hints_ e
  | EphemeralRef i => default ∅ (ephemeral_hints_ e !! i)
  end.

Definition update (r : HintsRef) (f : Hints -> Hints) (e : Environment)
  : Environment :=
  match r with
  | ClosureRef => with_closure_hints (f (closure_hints_ e)) e
  | EphemeralRef i =>
      with_ephemeral_hints (alter f i (ephemeral_hints_ e)) e
  end.

(** [operator[]] of a vector at an [int] index: out of the vector there is
    no defined behaviour. *)
Definition vector_ref (e : Environment) (i : Z) : Outcome HintsRef :=
  if bool_decide (0 <= i < Z.of_nat (length (ephemeral_hints_ e)))
  then Done (EphemeralRef (Z.to_nat i))
  else Fatal vector_index_out_of_bounds.

Section EnvironmentOps.
Context `{RegisterLayout} (cfg : BuildConfig).

Definition Kill (e : Environment) : Outcome Environment :=
  _ ← DCHECK cfg Kill_DCHECK_not_dead (negb (IsDead e));
  let e' := with_ephemeral_hints [] e in
  _ ← DCHECK cfg Kill_DCHECK_dead (IsDead e');
  Done e'.

Definition Revive (e : Environment) : Outcome Environment :=
  _ ← DCHECK cfg Revive_DCHECK_dead (IsDead e);
  let e' := with_ephemeral_hints
              (resize (Z.to_nat (ephemeral_hints_size e)) ∅ (ephemeral_hints_ e)) e in
  _ ← DCHECK cfg Revive_DCHECK_not_dead (negb (IsDead e'));
  Done e'.

(** [CHECK_LT] of an [int] against a [size_t] compares the numbers, so a
    negative index passes it. *)
Definition accumulator_hints (e : Environment) : Outcome HintsRef :=
  _ ← CHECK accumulator_hints_CHECK_LT
        (bool_decide (accumulator_index e < Z.of_nat (length (ephemeral_hints_ e))));
  vector_ref e (accumulator_index e).

(** The last sum is the one of the two [int]s as long as it fits an [int];
    beyond that the language gives the sum of the code no meaning, and the
    statements about registers keep to sums that fit. *)
Definition RegisterToLocalIndex (e : Environment) (reg : Register) : Outcome Z :=
  if is_current_context reg then Done (current_context_index e)
  else if is_parameter reg then Done (ToParameterIndex reg (parameter_count_ e))
  else
    _ ← DCHECK cfg RegisterToLocalIndex_DCHECK_not_closure
          (negb (is_function_closure reg));
    Done (parameter_count_ e + index reg).

Definition register_hints (e : Environment) (reg : Register) : Outcome HintsRef :=
  if is_function_closure reg then Done ClosureRef
  else
    local_index ← RegisterToLocalIndex e reg;
    _ ← CHECK register_hints_CHECK_LT
          (bool_decide (local_index < Z.of_nat (length (ephemeral_hints_ e))));
    vector_ref e local_index.

Definition ClearEphemeralHints (e : Environment) : Environment :=
  with_ephemeral_hints (Clear <$> ephemeral_hints_ e) e.

(** [static_cast<int>] of a [size_t]. *)
Definition static_cast_int (n : Z) : Z :=
  (n + 2 ^ 31) `mod` 2 ^ 32 - 2 ^ 31.

(** The loop of [ExportRegisterHints], from [i] on for [n] more rounds. *)
Fixpoint ExportRegisterHints_loop (e : Environment) (reg_base i : Z) (n : nat)
  (dst : list Hints) : Outcome (list Hints) :=
  match n with
  | O => Done dst
  | S n' =>
      r ← register_hints e (MkRegister (reg_base + i));
      ExportRegisterHints_loop e reg_base (i + 1) n' (dst ++ [deref r e])
  end.

Definition ExportRegisterHints (e : Environment) (first : Register) (count : Z)
  (dst : list Hints) : Outcome (list Hints) :=
  let dst := resize (length dst + Z.to_nat count) ∅ dst in
  let reg_base := index first in
  ExportRegisterHints_loop e reg_base 0 (Z.to_nat (static_cast_int count)) dst.

(** [Environment::Merge]; [other] is left as it is. *)
Definition Merge (e other : Environment) : Outcome Environment :=
  _ ← CHECK Merge_CHECK_EQ_parameter_count
        (bool_decide (parameter_count_ e = parameter_count_ other));
  _ ← CHECK Merge_CHECK_EQ_register_count
        (bool_decide (register_count_ e = register_count_ other));
  _ ← SLOW_DCHECK cfg Merge_SLOW_DCHECK_closure_hints
        (Equals (closure_hints_ e) (closure_hints_ other));
  if IsDead e then
    let e' := with_ephemeral_hints (ephemeral_hints_ other) e in
    _ ← SLOW_DCHECK cfg Merge_SLOW_DCHECK_return_value_hints
          (Includes (return_value_hints_ e') (return_value_hints_ other));
    _ ← CHECK Merge_CHECK_not_dead (negb (IsDead e'));
    Done e'
  else
    _ ← CHECK Merge_CHECK_EQ_size
          (bool_decide (length (ephemeral_hints_ e) = length (ephemeral_hints_ other)));
    let e' := with_ephemeral_hints
                (zip_with (fun mine theirs => Add theirs mine)
                          (ephemeral_hints_ e) (ephemeral_hints_ other)) e in
    Done (with_return_value_hints
            (Add (return_value_hints_ other) (return_value_hints_ e')) e').

End EnvironmentOps.

(** ** Flags, feedback and the heap *)

(** [SerializerForBackgroundCompilationFlags]. *)
Record Flags : Type := MkFlags {
  kBailoutOnUninitialized : bool;
  kCollectSourcePositions : bool;
  kOsr : bool;
}.

Definition without_kOsr (f : Flags) : Flags :=
  MkFlags (kBailoutOnUninitialized f) (kCollectSourcePositions f) false.

(** A [FeedbackSlot] is an [int] id; the invalid slot has the id -1. *)
Definition FeedbackSlot : Type := Z.
Definition IsInvalid (slot : FeedbackSlot) : bool := bool_decide (slot = -1).

(** A [FeedbackSource] is a feedback vector with one of its slots. *)
Definition FeedbackSource : Type := (Handle * FeedbackSlot)%type.

Inductive AccessMode : Type := kLoad | kStore | kStoreInLiteral | kHas.

#[global] Instance AccessMode_eq_dec : EqDecision AccessMode.
Proof. solve_decision. Defined.

Inductive InlineCacheState : Type :=
| UNINITIALIZED | PREMONOMORPHIC | MONOMORPHIC | RECOMPUTE_HANDLER
| POLYMORPHIC | MEGAMORPHIC | GENERIC.

#[global] Instance InlineCacheState_eq_dec : EqDecision InlineCacheState.
Proof. solve_decision. Defined.

Inductive KeyType : Type := PROPERTY | ELEMENT.

#[global] Instance KeyType_eq_dec : EqDecision KeyType.
Proof. solve_decision. Defined.

(** The kinds of [ProcessedFeedback] the serializer stores or reads. *)
Inductive ProcessedFeedback : Type :=
| InsufficientFeedback
| GlobalAccessFeedback (constant_hint : option Handle)
| NamedAccessFeedback (name : Handle) (access_infos : list N)
| ElementAccessFeedback (all_maps : list Handle).

Definition is_kInsufficient (f : option ProcessedFeedback) : bool :=
  match f with Some InsufficientFeedback => true | _ => false end.

(** The builtins [ProcessBuiltinCall] tells apart. *)
Inductive Builtin : Type :=
| kPromiseConstructor
| kPromisePrototypeCatch
| kPromisePrototypeFinally
| kPromisePrototypeThen
| kOtherBuiltin.

(** The decoded instructions the bytecode iterator yields.  The operands
    are the ones the visitors read; a constant-pool operand is the handle
    the pool holds.  The lists [CLEAR_ENVIRONMENT_LIST],
    [CLEAR_ACCUMULATOR_LIST], [CONDITIONAL_JUMPS_LIST],
    [UNCONDITIONAL_JUMPS_LIST], [IGNORED_BYTECODE_LIST],
    [UNREACHABLE_BYTECODE_LIST] and [KILL_ENVIRONMENT_LIST] are defined in
    the header, which is not among the sources at hand: an instruction of
    one of them is tagged with its list, and an opcode outside
    [SUPPORTED_BYTECODE_LIST] is [Unsupported]. *)
Inductive BytecodeList : Type :=
| CLEAR_ENVIRONMENT_LIST
| CLEAR_ACCUMULATOR_LIST
| CONDITIONAL_JUMPS_LIST
| UNCONDITIONAL_JUMPS_LIST
| IGNORED_BYTECODE_LIST
| UNREACHABLE_BYTECODE_LIST
| KILL_ENVIRONMENT_LIST.

Inductive Bytecode : Type :=
| LdaTrue | LdaFalse | LdaTheHole | LdaUndefined | LdaNull | LdaZero
| LdaSmi (imm : Z)
| LdaConstant (constant : Handle)
| Ldar (reg : Register)
| Star (reg : Register)
| Mov (src dst : Register)
| CreateClosure (shared_info : Handle) (cell_index : Z)
| GetSuperConstructor (dst : Register)
| CallUndefinedReceiver (callee first : Register) (reg_count : Z) (slot : FeedbackSlot)
| CallUndefinedReceiver0 (callee : Register) (slot : FeedbackSlot)
| CallUndefinedReceiver1 (callee arg0 : Register) (slot : FeedbackSlot)
| CallUndefinedReceiver2 (callee arg0 arg1 : Register) (slot : FeedbackSlot)
| CallAnyReceiver (callee first : Register) (reg_count : Z) (slot : FeedbackSlot)
| CallProperty (callee first : Register) (reg_count : Z) (slot : FeedbackSlot)
| CallProperty0 (callee receiver : Register) (slot : FeedbackSlot)
| CallProperty1 (callee receiver arg0 : Register) (slot : FeedbackSlot)
| CallProperty2 (callee receiver arg0 arg1 : Register) (slot : FeedbackSlot)
| CallWithSpread (callee first : Register) (reg_count : Z) (slot : FeedbackSlot)
| Construct (callee first : Register) (reg_count : Z) (slot : FeedbackSlot)
| ConstructWithSpread (callee first : Register) (reg_count : Z) (slot : FeedbackSlot)
| LdaGlobal (slot : FeedbackSlot)
| LdaGlobalInsideTypeof (slot : FeedbackSlot)
| LdaLookupGlobalSlot (slot : FeedbackSlot)
| LdaLookupGlobalSlotInsideTypeof (slot : FeedbackSlot)
| StaGlobal (slot : FeedbackSlot)
| LdaNamedProperty (receiver : Register) (name : Handle) (slot : FeedbackSlot)
| StaNamedProperty (receiver : Register) (name : Handle) (slot : FeedbackSlot)
| StaNamedOwnProperty (receiver : Register) (name : Handle) (slot : FeedbackSlot)
| LdaKeyedProperty (receiver : Register) (slot : FeedbackSlot)
| TestIn (key : Register) (slot : FeedbackSlot)
| StaKeyedProperty (receiver key : Register) (slot : FeedbackSlot)
| StaInArrayLiteral (receiver key : Register) (slot : FeedbackSlot)
| Return
| SwitchOnSmiNoFeedback (targets : list Z)
| Listed (list_ : BytecodeList) (is_ResumeGenerator : bool) (jump_target : Z)
| Unsupported (is_ResumeGenerator : bool).

(** [current_bytecode() == Bytecode::kResumeGenerator]. *)
Definition is_kResumeGenerator (b : Bytecode) : bool :=
  match b with
  | Listed _ r _ => r
  | Unsupported r => r
  | _ => false
  end.

(** What the serializer reads of a [BytecodeArray]: its header, the
    sequence of (offset, instruction) its iterator produces and the
    handler offsets of its handler table, one per range entry. *)
Record BytecodeArray : Type := MkBytecodeArray {
  parameter_count : Z;
  register_count : Z;
  incoming_new_target_or_generator_register : Register;
  bytecodes : list (Z * Bytecode);
  range_handlers : list Z;
}.

(** The runtime heap and the derived data of the broker, as far as the
    serializer queries them.  All of it lives outside this file. *)
Record Heap : Type := MkHeap {
  (* the factory's canonical values *)
  undefined_value : Handle;
  true_value : Handle;
  false_value : Handle;
  null_value : Handle;
  the_hole_value : Handle;
  prototype_string : Handle;
  smi_handle : Z -> Handle;
  (* objects *)
  IsJSFunction : Handle -> bool;
  IsUndefined : Handle -> bool;
  IsJSReceiver : Handle -> bool;
  IsJSPromise : Handle -> bool;
  IsJSTypedArray : Handle -> bool;
  IsJSArray : Handle -> bool;
  IsHeapObject : Handle -> bool;
  IsFeedbackVector : Handle -> bool;
  AsSmi : Handle -> option Z;
  object_map : Handle -> Handle;
  ObjectRef_equals : Handle -> Handle -> bool;
  (* functions *)
  function_shared : Handle -> Handle;
  has_feedback_vector : Handle -> bool;
  function_feedback_vector : Handle -> Handle;
  (* shared function infos *)
  GetBytecodeArray : Handle -> BytecodeArray;
  IsApiFunction : Handle -> bool;
  HasBuiltinId : Handle -> bool;
  builtin_id : Handle -> Builtin;
  IsInlineable : Handle -> bool;
  function_data : Handle -> Handle;
  (* function template infos *)
  has_call_code : Handle -> bool;
  accept_any_receiver : Handle -> bool;
  is_signature_undefined : Handle -> bool;
  (* maps *)
  map_prototype : Handle -> Handle;
  is_callable : Handle -> bool;
  is_constructor : Handle -> bool;
  is_access_check_needed : Handle -> bool;
  is_abandoned_prototype_map : Handle -> bool;
  is_deprecated : Handle -> bool;
  IsJSPromiseMap : Handle -> bool;
  IsMapOfCurrentGlobalProxy : Handle -> bool;
  TryUpdate : Handle -> option Handle;
  (* the native context *)
  global_proxy_object : Handle;
  (* feedback vectors and their nexus *)
  closure_feedback_cell_value : Handle -> Z -> Handle;
  nexus_IsUninitialized : FeedbackSource -> bool;
  nexus_ic_state : FeedbackSource -> InlineCacheState;
  nexus_GetHeapObject : FeedbackSource -> option Handle;
  nexus_ExtractMaps : FeedbackSource -> list Handle;
  nexus_GetKeyType : FeedbackSource -> KeyType;
  vector_slot_pair_IsValid : FeedbackSource -> bool;
  (* what the broker and the access-info factory derive *)
  GetNameFeedback : FeedbackSource -> option Handle;
  broker_ProcessFeedbackForGlobalAccess : FeedbackSource -> option ProcessedFeedback;
  broker_ProcessFeedbackMapsForElementAccess : list Handle -> list Handle;
  ComputePropertyAccessInfo : Handle -> Handle -> AccessMode -> N;
  GetOwnConstantElement : Handle -> Z -> bool;
}.

(** A handle is null when it has no location. *)
Definition is_null (h : Handle) : bool := bool_decide (h = 0%N).

(** The snapshots the serializer asks the broker to take, in order. *)
Inductive Snapshot : Type :=
| JSFunctionRef_Serialize (closure : Handle)
| EnsureSourcePositionsAvailable (shared_info : Handle)
| FeedbackVectorRef_SerializeSlots (vector : Handle)
| BytecodeArrayRef_new (shared_info : Handle)
| MapRef_SerializePrototype (map : Handle)
| FeedbackCellRef_new (vector : Handle) (cell_index : Z)
| ObjectRef_new (object : Handle)
| FunctionTemplateInfoRef_Serialize (info : Handle)
| SerializeFunctionTemplateInfo (shared_info : Handle)
| LookupHolderOfExpectedType (info map : Handle)
| SerializeScopeInfo
| SerializePromiseCapabilityDefaultResolveCode
| SerializePromiseCapabilityDefaultRejectCode
| GetPropertyCell (name : Handle)
| JSTypedArrayRef_Serialize (array : Handle)
| GetOwnConstantElement_snapshot (receiver : Handle) (key : Z)
| GetOwnCowElement (receiver : Handle) (key : Z)
| SerializeForElementLoad (map : Handle)
| SerializeForElementStore (map : Handle)
| ComputePropertyAccessInfo_snapshot (map name : Handle) (mode : AccessMode).

(** The mutable part of [JSHeapBroker].  [feedback_] is its cache of
    processed feedback, where a null pointer may be stored ([None]).
    [walks_] records each entry into [TraverseBytecode]: it is the
    instrument that counts the walks of a function. *)
Record JSHeapBroker : Type := MkBroker {
  feedback_ : gmap FeedbackSource (option ProcessedFeedback);
  serialized_for_compilation_ : gset FunctionBlueprint;
  snapshots_ : list Snapshot;
  walks_ : list FunctionBlueprint;
}.

(** Modelled from the spec: [SharedFunctionInfoRef::IsSerializedForCompilation]
    and [SetSerializedForCompilation] are part of the broker; the spec
    describes them as a global mark on the shared info, keyed by vector. *)
Definition IsSerializedForCompilation (b : JSHeapBroker)
  (shared_info vector : Handle) : bool :=
  bool_decide (MkBlueprint shared_info vector ∈ serialized_for_compilation_ b).

Definition SetSerializedForCompilation (shared_info vector : Handle)
  (b : JSHeapBroker) : JSHeapBroker :=
  MkBroker (feedback_ b)
           ({[MkBlueprint shared_info vector]} ∪ serialized_for_compilation_ b)
           (snapshots_ b) (walks_ b).

Definition HasFeedback (b : JSHeapBroker) (source : FeedbackSource) : bool :=
  bool_decide (is_Some (feedback_ b !! source)).

Definition GetFeedback (b : JSHeapBroker) (source : FeedbackSource)
  : option ProcessedFeedback :=
  default None (feedback_ b !! source).

Definition SetFeedback (source : FeedbackSource)
  (feedback : option ProcessedFeedback) (b : JSHeapBroker) : JSHeapBroker :=
  MkBroker (<[source := feedback]> (feedback_ b))
           (serialized_for_compilation_ b) (snapshots_ b) (walks_ b).

Definition take_snapshot (s : Snapshot) (b : JSHeapBroker) : JSHeapBroker :=
  MkBroker (feedback_ b) (serialized_for_compilation_ b)
           (snapshots_ b ++ [s]) (walks_ b).

Definition record_walk (f : FunctionBlueprint) (b : JSHeapBroker) : JSHeapBroker :=
  MkBroker (feedback_ b) (serialized_for_compilation_ b)
           (snapshots_ b) (walks_ b ++ [f]).

(** ** The serializer *)

(** [CompilationSubject]: a blueprint and, when known, the closure. *)
Record CompilationSubject : Type := MkSubject {
  blueprint : FunctionBlueprint;
  closure : option Handle;
}.

Record Serializer : Type := MkSerializer {
  environment_ : Environment;
  jump_target_environments_ : gmap Z Environment;
  flags_ : Flags;
}.

(** A serializer at work: its own fields and the broker it shares. *)
Record State : Type := MkState {
  serializer : Serializer;
  broker : JSHeapBroker;
}.

Definition M (A : Type) : Type := State -> Outcome (A * State).

#[global] Instance M_ret : MRet M := fun A a s => Done (a, s).
#[global] Instance M_bind : MBind M := fun A B f m s =>
  match m s with
  | Done (a, s') => f a s'
  | Fatal e => Fatal e
  | OutOfFuel => OutOfFuel
  end.

Definition lift {A} (o : Outcome A) : M A := fun s =>
  match o with
  | Done a => Done (a, s)
  | Fatal e => Fatal e
  | OutOfFuel => OutOfFuel
  end.

Definition environment : M Environment :=
  fun s => Done (environment_ (serializer s), s).

(** A method of the environment called through [environment()->]. *)
Definition modify_environment (f : Environment -> Outcome Environment)
  : M unit := fun s =>
  match f (environment_ (serializer s)) with
  | Done e =>
      Done (tt, MkState (MkSerializer e
                                      (jump_target_environments_ (serializer s))
                                      (flags_ (serializer s)))
                        (broker s))
  | Fatal x => Fatal x
  | OutOfFuel => OutOfFuel
  end.

Definition jump_target_environments : M (gmap Z Environment) :=
  fun s => Done (jump_target_environments_ (serializer s), s).

Definition set_jump_target_environments (j : gmap Z Environment) : M unit :=
  fun s =>
  Done (tt, MkState (MkSerializer (environment_ (serializer s)) j
                                  (flags_ (serializer s)))
                    (broker s)).

Definition flags : M Flags := fun s => Done (flags_ (serializer s), s).

Definition get_broker : M JSHeapBroker := fun s => Done (broker s, s).

Definition modify_broker (f : JSHeapBroker -> JSHeapBroker) : M unit :=
  fun s => Done (tt, MkState (serializer s) (f (broker s))).

Definition snapshot (x : Snapshot) : M unit := modify_broker (take_snapshot x).

(** A loop over the elements of a container, in order. *)
Fixpoint for_each {A} (l : list A) (body : A -> M unit) : M unit :=
  match l with
  | [] => mret tt
  | x :: rest => _ ← body x; for_each rest body
  end.

Section SerializerOps.
Context `{RegisterLayout} (cfg : BuildConfig) (heap : Heap).

(** The constructor [CompilationSubject(closure, isolate)]; the other one
    wraps a blueprint and has no closure. *)
Definition CompilationSubject_of_closure (closure : Handle)
  : Outcome CompilationSubject :=
  _ ← CHECK CompilationSubject_CHECK_has_feedback_vector
        (has_feedback_vector heap closure);
  Done (MkSubject (MkBlueprint (function_shared heap closure)
                               (function_feedback_vector heap closure))
                  (Some closure)).

Definition CompilationSubject_of_blueprint (b : FunctionBlueprint)
  : CompilationSubject :=
  MkSubject b None.

(** [Environment(zone, function)]. *)
Definition Environment_new (function : CompilationSubject) : Environment :=
  let array := GetBytecodeArray heap (shared (blueprint function)) in
  let e := MkEnvironment (blueprint function) (parameter_count array)
                         (register_count array) ∅ ∅ [] in
  let e := with_ephemeral_hints
             (replicate (Z.to_nat (ephemeral_hints_size e)) ∅) e in
  match closure function with
  | Some c => with_closure_hints (AddConstant c (closure_hints_ e)) e
  | None =>
      with_closure_hints
        (AddFunctionBlueprint (blueprint function) (closure_hints_ e)) e
  end.

(** [v[i] = x] on a vector. *)
Definition vector_set (i : nat) (x : Hints) (v : list Hints)
  : Outcome (list Hints) :=
  if bool_decide (i < length v)%nat then Done (<[i := x]> v)
  else Fatal vector_index_out_of_bounds.

(** [for (...; ++i) v[i] = xs[i - from]], written from index [i] on. *)
Fixpoint assign_from (i : nat) (xs : list Hints) (v : list Hints)
  : Outcome (list Hints) :=
  match xs with
  | [] => Done v
  | x :: rest => v' ← vector_set i x v; assign_from (S i) rest v'
  end.

(** [Environment(zone, isolate, function, new_target, arguments)]. *)
Definition Environment_inlined (function : CompilationSubject)
  (new_target : option Hints) (arguments : list Hints) : Outcome Environment :=
  let e := Environment_new function in
  let param_count := Z.to_nat (parameter_count_ e) in
  v ← assign_from 0 (take (min (length arguments) param_count) arguments)
                  (ephemeral_hints_ e);
  let undefined_hint := AddConstant (undefined_value heap) ∅ in
  v ← assign_from (length arguments)
                  (replicate (param_count - length arguments) undefined_hint) v;
  let e := with_ephemeral_hints v e in
  let new_target_reg :=
    incoming_new_target_or_generator_register
      (GetBytecodeArray heap (shared (function_ e))) in
  if is_valid new_target_reg then
    _ ← (if debug cfg then
           r ← register_hints cfg e new_target_reg;
           CHECK Environment_DCHECK_new_target_empty (IsEmpty (deref r e))
         else Done tt);
    match new_target with
    | Some t =>
        r ← register_hints cfg e new_target_reg;
        Done (update r (Add t) e)
    | None => Done e
    end
  else Done e.

(** The two constructors of the serializer. *)
Definition Serializer_new (closure : Handle) (flags : Flags)
  (b : JSHeapBroker) : Outcome (Serializer * JSHeapBroker) :=
  subject ← CompilationSubject_of_closure closure;
  Done (MkSerializer (Environment_new subject) ∅ flags,
        take_snapshot (JSFunctionRef_Serialize closure) b).

(** The constructor of a child serializer, run by its parent. *)
Definition Serializer_new_inlined (function : CompilationSubject)
  (new_target : option Hints) (arguments : list Hints) (flags : Flags)
  : M Serializer :=
  e ← lift (Environment_inlined function new_target arguments);
  _ ← lift (DCHECK cfg Serializer_DCHECK_not_osr (negb (kOsr flags)));
  _ ← match closure function with
      | Some c => snapshot (JSFunctionRef_Serialize c)
      | None => mret tt
      end;
  mret (MkSerializer e ∅ flags).

(** Reading and writing through the accessors of the environment. *)
Definition accumulator : M HintsRef :=
  e ← environment; lift (accumulator_hints e).

Definition register (reg : Register) : M HintsRef :=
  e ← environment; lift (register_hints cfg e reg).

Definition read (r : HintsRef) : M Hints :=
  e ← environment; mret (deref r e).

Definition write (r : HintsRef) (f : Hints -> Hints) : M unit :=
  modify_environment (fun e => Done (update r f e)).

Definition clear_ephemeral_hints : M unit :=
  modify_environment (fun e => Done (ClearEphemeralHints e)).

Definition BailoutOnUninitialized (slot : FeedbackSlot) : M bool :=
  e ← environment;
  _ ← lift (DCHECK cfg BailoutOnUninitialized_DCHECK_not_dead (negb (IsDead e)));
  f ← flags;
  if negb (kBailoutOnUninitialized f) then mret false
  else if kOsr f then mret false
  else
    let source : FeedbackSource := (feedback_vector (function_ e), slot) in
    if negb (IsInvalid slot) && nexus_IsUninitialized heap source then
      b ← get_broker;
      _ ← (if HasFeedback b source then
             lift (DCHECK cfg BailoutOnUninitialized_DCHECK_EQ_kind
                          (is_kInsufficient (GetFeedback b source)))
           else modify_broker (SetFeedback source (Some InsufficientFeedback)));
      _ ← modify_environment (Kill cfg);
      mret true
    else mret false.

(** [ExceptionHandlerMatcher]: the handler offsets as a sorted set, and an
    iterator that is the part of the set not yet passed. *)
Definition ExceptionHandlerMatcher_new (array : BytecodeArray) : list Z :=
  merge_sort Z.le (remove_dups (range_handlers array)).

Fixpoint skip_handlers_before (offset : Z) (handlers_iterator : list Z) : list Z :=
  match handlers_iterator with
  | [] => []
  | h :: rest =>
      if bool_decide (h < offset) then skip_handlers_before offset rest
      else handlers_iterator
  end.

Definition CurrentBytecodeIsExceptionHandlerStart (offset : Z)
  (handlers_iterator : list Z) : bool * list Z :=
  let it := skip_handlers_before offset handlers_iterator in
  (match it with
   | [] => false
   | h :: _ => bool_decide (h = offset)
   end, it).

(** ** Joins at jump targets *)

Definition ContributeToJumpTargetEnvironment (target_offset : Z) : M unit :=
  targets ← jump_target_environments;
  e ← environment;
  match targets !! target_offset with
  | None => set_jump_target_environments (<[target_offset := e]> targets)
  | Some stored =>
      merged ← lift (Merge cfg stored e);
      set_jump_target_environments (<[target_offset := merged]> targets)
  end.

Definition IncorporateJumpTargetEnvironment (target_offset : Z) : M unit :=
  targets ← jump_target_environments;
  match targets !! target_offset with
  | Some stored =>
      _ ← modify_environment (fun e => Merge cfg e stored);
      set_jump_target_environments (delete target_offset targets)
  | None => mret tt
  end.

Definition ProcessJump (current_offset jump_target : Z) : M unit :=
  if bool_decide (current_offset < jump_target)
  then ContributeToJumpTargetEnvironment jump_target
  else mret tt.

(** ** Loads and moves *)

Definition load_constant (constant : Handle) : M unit :=
  a ← accumulator; _ ← write a Clear;
  a ← accumulator; write a (AddConstant constant).

Definition VisitLdar (reg : Register) : M unit :=
  a ← accumulator; _ ← write a Clear;
  a ← accumulator; r ← register reg; h ← read r;
  write a (Add h).

Definition VisitStar (reg : Register) : M unit :=
  r ← register reg; _ ← write r Clear;
  r ← register reg; a ← accumulator; h ← read a;
  write r (Add h).

Definition VisitMov (src dst : Register) : M unit :=
  r ← register dst; _ ← write r Clear;
  r ← register dst; s ← register src; h ← read s;
  write r (Add h).

Definition VisitCreateClosure (shared_info : Handle) (cell_index : Z) : M unit :=
  e ← environment;
  let vector := feedback_vector (function_ e) in
  let cell_value := closure_feedback_cell_value heap vector cell_index in
  _ ← snapshot (FeedbackCellRef_new vector cell_index);
  _ ← snapshot (ObjectRef_new cell_value);
  a ← accumulator; _ ← write a Clear;
  if IsFeedbackVector heap cell_value then
    a ← accumulator;
    write a (AddFunctionBlueprint (MkBlueprint shared_info cell_value))
  else mret tt.

Definition VisitGetSuperConstructor (dst : Register) : M unit :=
  r ← register dst; _ ← write r Clear;
  a ← accumulator; h ← read a;
  for_each (ordered (constants h)) (fun constant =>
    if negb (IsJSFunction heap constant) then mret tt
    else
      let map := object_map heap constant in
      _ ← snapshot (MapRef_SerializePrototype map);
      let proto := map_prototype heap map in
      if IsHeapObject heap proto && is_constructor heap (object_map heap proto)
      then r ← register dst; write r (AddConstant proto)
      else mret tt).

Definition VisitReturn : M unit :=
  a ← accumulator; h ← read a;
  _ ← modify_environment (fun e =>
        Done (with_return_value_hints (Add h (return_value_hints_ e)) e));
  clear_ephemeral_hints.

Definition VisitSwitchOnSmiNoFeedback (targets : list Z) : M unit :=
  for_each targets ContributeToJumpTargetEnvironment.

(** ** Calls and constructs *)

(** The run of a child serializer, [child_serializer.Run()]: the walk of
    the callee, on the broker of the caller. *)
Variable child_Run : Serializer -> JSHeapBroker -> Outcome (Hints * JSHeapBroker).

Definition run_child (child : Serializer) : M Hints := fun s =>
  match child_Run child (broker s) with
  | Done (h, b) => Done (h, MkState (serializer s) b)
  | Fatal e => Fatal e
  | OutOfFuel => OutOfFuel
  end.

(** [padded.pop_back()]: there is no defined behaviour on an empty vector. *)
Definition pop_back (v : list Hints) : Outcome (list Hints) :=
  match v with
  | [] => Fatal pop_back_of_empty_vector
  | _ => Done (removelast v)
  end.

Equations? RunChildSerializer (function : CompilationSubject)
  (new_target : option Hints) (arguments : list Hints) (with_spread : bool)
  : M Hints by wf (Nat.b2n with_spread) lt :=
RunChildSerializer function new_target arguments true :=
  _ ← lift (DCHECK cfg RunChildSerializer_DCHECK_LT_arguments
                   (bool_decide (0 < length arguments)%nat));
  padded ← lift (pop_back arguments);
  let padded :=
    resize (Z.to_nat (parameter_count
                        (GetBytecodeArray heap (shared (blueprint function)))))
           ∅ padded in
  RunChildSerializer function new_target padded false;
RunChildSerializer function new_target arguments false :=
  f ← flags;
  child_serializer ← Serializer_new_inlined function new_target arguments
                                            (without_kOsr f);
  run_child child_serializer.
Proof. simpl. lia. Qed.

Definition GetHeapObjectFeedback (vector : Handle) (slot : FeedbackSlot)
  : M (option Handle) :=
  if IsInvalid slot then mret None
  else
    let source : FeedbackSource := (vector, slot) in
    _ ← lift (DCHECK cfg GetHeapObjectFeedback_DCHECK_valid
                     (vector_slot_pair_IsValid heap source));
    if nexus_IsUninitialized heap source then mret None
    else
      match nexus_GetHeapObject heap source with
      | None => mret None
      | Some object => _ ← snapshot (ObjectRef_new object); mret (Some object)
      end.

Definition ProcessReceiverMapForApiCall (target receiver : Handle) : M unit :=
  if is_access_check_needed heap receiver then mret tt
  else snapshot (LookupHolderOfExpectedType target receiver).

Definition ProcessApiCall (target : Handle) (arguments : list Hints) : M unit :=
  let target_template_info := function_data heap target in
  _ ← snapshot (FunctionTemplateInfoRef_Serialize target_template_info);
  if negb (has_call_code heap target_template_info) then mret tt
  else
    _ ← snapshot (SerializeFunctionTemplateInfo target);
    if accept_any_receiver heap target_template_info
       && is_signature_undefined heap target_template_info
    then mret tt
    else
      _ ← lift (CHECK ProcessApiCall_CHECK_GE_arguments
                      (bool_decide (1 <= length arguments)%nat));
      let receiver_hints := default ∅ (arguments !! 0%nat) in
      _ ← for_each (ordered (constants receiver_hints)) (fun hint =>
            if IsUndefined heap hint then
              ProcessReceiverMapForApiCall target_template_info
                (object_map heap (global_proxy_object heap))
            else if negb (IsJSReceiver heap hint) then mret tt
            else ProcessReceiverMapForApiCall target_template_info
                   (object_map heap hint));
      for_each (ordered (maps receiver_hints))
               (ProcessReceiverMapForApiCall target_template_info).

Definition ProcessMapHintsForPromises (receiver_hints : Hints) : M unit :=
  _ ← for_each (ordered (constants receiver_hints)) (fun hint =>
        if negb (IsJSPromise heap hint) then mret tt
        else snapshot (MapRef_SerializePrototype (object_map heap hint)));
  for_each (ordered (maps receiver_hints)) (fun receiver_map =>
    if negb (IsJSPromiseMap heap receiver_map) then mret tt
    else snapshot (MapRef_SerializePrototype receiver_map)).

Definition receiver_of (arguments : list Hints) : M Hints :=
  _ ← lift (CHECK ProcessBuiltinCall_CHECK_GE_arguments
                  (bool_decide (1 <= length arguments)%nat));
  mret (default ∅ (arguments !! 0%nat)).

Definition ProcessBuiltinCall (target : Handle) (arguments : list Hints) : M unit :=
  _ ← lift (DCHECK cfg ProcessBuiltinCall_DCHECK_builtin_id
                   (HasBuiltinId heap target));
  match builtin_id heap target with
  | kPromiseConstructor =>
      _ ← snapshot SerializeScopeInfo;
      _ ← snapshot SerializePromiseCapabilityDefaultResolveCode;
      snapshot SerializePromiseCapabilityDefaultRejectCode
  | kPromisePrototypeCatch =>
      _ ← snapshot SerializeScopeInfo;
      receiver_hints ← receiver_of arguments;
      ProcessMapHintsForPromises receiver_hints
  | kPromisePrototypeFinally =>
      _ ← snapshot SerializeScopeInfo;
      receiver_hints ← receiver_of arguments;
      ProcessMapHintsForPromises receiver_hints
  | kPromisePrototypeThen =>
      receiver_hints ← receiver_of arguments;
      ProcessMapHintsForPromises receiver_hints
  | kOtherBuiltin => mret tt
  end.

(** The part of the two loops of [ProcessCallOrConstruct] that looks at
    the shared function info of a callee. *)
Definition process_api_or_builtin (shared_info : Handle) (arguments : list Hints)
  : M unit :=
  if IsApiFunction heap shared_info then
    _ ← ProcessApiCall shared_info arguments;
    lift (DCHECK cfg ProcessCallOrConstruct_DCHECK_not_inlineable
                 (negb (IsInlineable heap shared_info)))
  else if HasBuiltinId heap shared_info then
    _ ← ProcessBuiltinCall shared_info arguments;
    lift (DCHECK cfg ProcessCallOrConstruct_DCHECK_not_inlineable
                 (negb (IsInlineable heap shared_info)))
  else mret tt.

Definition ProcessCallOrConstruct (callee : Hints) (new_target : option Hints)
  (arguments : list Hints) (slot : FeedbackSlot) (with_spread : bool) : M unit :=
  bailout ← BailoutOnUninitialized slot;
  if bailout : bool then mret tt
  else
    e ← environment;
    feedback ← GetHeapObjectFeedback (feedback_vector (function_ e)) slot;
    let '(callee, new_target) :=
      match feedback with
      | Some object =>
          if is_callable heap (object_map heap object) then
            match new_target with
            | Some t => (AddConstant object callee, Some (AddConstant object t))
            | None => (AddConstant object callee, None)
            end
          else (callee, new_target)
      | None => (callee, new_target)
      end in
    a ← accumulator; _ ← write a Clear;
    _ ← for_each (ordered (constants callee)) (fun hint =>
          if negb (IsJSFunction heap hint) then mret tt
          else
            let shared_info := function_shared heap hint in
            _ ← process_api_or_builtin shared_info arguments;
            if negb (IsInlineable heap shared_info)
               || negb (has_feedback_vector heap hint)
            then mret tt
            else
              a ← accumulator;
              subject ← lift (CompilationSubject_of_closure hint);
              h ← RunChildSerializer subject new_target arguments with_spread;
              write a (Add h));
    for_each (ordered_blueprints (function_blueprints callee)) (fun hint =>
      let shared_info := shared hint in
      _ ← process_api_or_builtin shared_info arguments;
      if negb (IsInlineable heap shared_info) then mret tt
      else
        a ← accumulator;
        h ← RunChildSerializer (CompilationSubject_of_blueprint hint)
                               new_target arguments with_spread;
        write a (Add h)).

Inductive ConvertReceiverMode : Type :=
| kNullOrUndefined | kNotNullOrUndefined | kAny.

(** The operand of a register count is a [uint32_t]; the two conversions
    below are the ones the callers of [ExportRegisterHints] apply. *)
Definition size_t_of_int (n : Z) : Z := n `mod` 2 ^ 64.

Definition export_registers (first : Register) (count : Z) (dst : list Hints)
  : M (list Hints) :=
  e ← environment; lift (ExportRegisterHints cfg e first count dst).

(** [with_spread] is a parameter of [ProcessCallVarArgs], which does not
    hand it on. *)
Definition ProcessCallVarArgs (callee first_reg : Register) (reg_count_operand : Z)
  (slot : FeedbackSlot) (receiver_mode : ConvertReceiverMode)
  (with_spread : bool) : M unit :=
  c ← register callee; callee_hints ← read c;
  let reg_count := static_cast_int reg_count_operand in
  let arguments :=
    match receiver_mode with
    | kNullOrUndefined => [AddConstant (undefined_value heap) ∅]
    | _ => []
    end in
  arguments ← export_registers first_reg (size_t_of_int reg_count) arguments;
  ProcessCallOrConstruct callee_hints None arguments slot false.

Definition read_register (reg : Register) : M Hints :=
  r ← register reg; read r.

Fixpoint read_registers (regs : list Register) : M (list Hints) :=
  match regs with
  | [] => mret []
  | reg :: rest =>
      h ← read_register reg; hs ← read_registers rest; mret (h :: hs)
  end.

(** The visitors of the calls of a fixed arity: the callee, the receiver
    when it is in a register and the arguments are read from their
    registers, in this order. *)
Definition call_with (callee : Register) (receiver : option Register)
  (args : list Register) (slot : FeedbackSlot) : M unit :=
  callee_hints ← read_register callee;
  receiver_hints ←
    match receiver with
    | Some reg => read_register reg
    | None => mret (AddConstant (undefined_value heap) ∅)
    end;
  arg_hints ← read_registers args;
  ProcessCallOrConstruct callee_hints None (receiver_hints :: arg_hints) slot false.

Definition construct_with (callee first_reg : Register) (reg_count : Z)
  (slot : FeedbackSlot) (with_spread : bool) : M unit :=
  c ← register callee; callee_hints ← read c;
  a ← accumulator; new_target ← read a;
  arguments ← export_registers first_reg reg_count [];
  ProcessCallOrConstruct callee_hints (Some new_target) arguments slot with_spread.

(** ** Feedback processing *)

Definition ProcessFeedbackForGlobalAccess (slot : FeedbackSlot)
  : M (option ProcessedFeedback) :=
  if IsInvalid slot then mret None
  else
    e ← environment;
    if is_null (feedback_vector (function_ e)) then mret None
    else
      let source : FeedbackSource := (feedback_vector (function_ e), slot) in
      b ← get_broker;
      if HasFeedback b source then mret (GetFeedback b source)
      else
        let feedback := broker_ProcessFeedbackForGlobalAccess heap source in
        _ ← modify_broker (SetFeedback source feedback);
        mret feedback.

Definition GetConstantHint (feedback : ProcessedFeedback) : option Handle :=
  match feedback with
  | GlobalAccessFeedback value => value
  | _ => None
  end.

Definition VisitLdaGlobal (slot : FeedbackSlot) : M unit :=
  a ← accumulator; _ ← write a Clear;
  feedback ← ProcessFeedbackForGlobalAccess slot;
  match feedback with
  | Some feedback =>
      match GetConstantHint feedback with
      | Some value => a ← accumulator; write a (AddConstant value)
      | None => mret tt
      end
  | None => mret tt
  end.

Definition VisitStaGlobal (slot : FeedbackSlot) : M unit :=
  _ ← ProcessFeedbackForGlobalAccess slot; mret tt.

Fixpoint GetRelevantReceiverMaps (maps : list Handle) : Outcome (list Handle) :=
  match maps with
  | [] => Done []
  | map :: rest =>
      match TryUpdate heap map with
      | Some map =>
          if negb (is_abandoned_prototype_map heap map) then
            _ ← DCHECK cfg GetRelevantReceiverMaps_DCHECK_not_deprecated
                  (negb (is_deprecated heap map));
            result ← GetRelevantReceiverMaps rest;
            Done (map :: result)
          else GetRelevantReceiverMaps rest
      | None => GetRelevantReceiverMaps rest
      end
  end.

Definition ProcessFeedbackMapsForElementAccess (maps : list Handle)
  (mode : AccessMode) : M ProcessedFeedback :=
  let all_maps := broker_ProcessFeedbackMapsForElementAccess heap maps in
  _ ← for_each all_maps (fun map =>
        match mode with
        | kHas | kLoad => snapshot (SerializeForElementLoad map)
        | kStore => snapshot (SerializeForElementStore map)
        | kStoreInLiteral => mret tt
        end);
  mret (ElementAccessFeedback all_maps).

Definition ProcessMapForNamedPropertyAccess (map name : Handle) : M unit :=
  if IsMapOfCurrentGlobalProxy heap map then snapshot (GetPropertyCell name)
  else mret tt.

Definition ProcessFeedbackMapsForNamedAccess (maps : list Handle)
  (mode : AccessMode) (name : Handle) : M ProcessedFeedback :=
  _ ← for_each maps (fun map =>
        _ ← ProcessMapForNamedPropertyAccess map name;
        snapshot (ComputePropertyAccessInfo_snapshot map name mode));
  let access_infos :=
    (fun map => ComputePropertyAccessInfo heap map name mode) <$> maps in
  _ ← lift (DCHECK cfg ProcessFeedbackMapsForNamedAccess_DCHECK_not_empty
                   (bool_decide (access_infos ≠ [])));
  mret (NamedAccessFeedback name access_infos).

Definition ProcessFeedbackForPropertyAccess (slot : FeedbackSlot)
  (mode : AccessMode) (static_name : option Handle) : M unit :=
  if IsInvalid slot then mret tt
  else
    e ← environment;
    if is_null (feedback_vector (function_ e)) then mret tt
    else
      let source : FeedbackSource := (feedback_vector (function_ e), slot) in
      b ← get_broker;
      if HasFeedback b source then mret tt
      else if bool_decide (nexus_ic_state heap source = UNINITIALIZED) then
        modify_broker (SetFeedback source (Some InsufficientFeedback))
      else
        match nexus_ExtractMaps heap source with
        | [] => modify_broker (SetFeedback source None)
        | maps =>
            maps ← lift (GetRelevantReceiverMaps maps);
            match maps with
            | [] => modify_broker (SetFeedback source (Some InsufficientFeedback))
            | _ =>
                let name :=
                  match static_name with
                  | Some n => Some n
                  | None => GetNameFeedback heap source
                  end in
                processed ←
                  match name with
                  | Some name =>
                      p ← ProcessFeedbackMapsForNamedAccess maps mode name;
                      mret (Some p)
                  | None =>
                      if bool_decide (nexus_GetKeyType heap source = ELEMENT)
                         && bool_decide (nexus_ic_state heap source ≠ MEGAMORPHIC)
                      then p ← ProcessFeedbackMapsForElementAccess maps mode;
                           mret (Some p)
                      else mret None
                  end;
                modify_broker (SetFeedback source processed)
            end
        end.

Definition ProcessKeyedPropertyAccess (receiver key : Hints)
  (slot : FeedbackSlot) (mode : AccessMode) : M unit :=
  bailout ← BailoutOnUninitialized slot;
  if bailout : bool then mret tt
  else
    _ ← ProcessFeedbackForPropertyAccess slot mode None;
    _ ← for_each (ordered (constants receiver)) (fun hint =>
          _ ← snapshot (ObjectRef_new hint);
          _ ← (if IsJSTypedArray heap hint
               then snapshot (JSTypedArrayRef_Serialize hint) else mret tt);
          if bool_decide (mode = kLoad) || bool_decide (mode = kHas) then
            for_each (ordered (constants key)) (fun key_hint =>
              _ ← snapshot (ObjectRef_new key_hint);
              match AsSmi heap key_hint with
              | Some k =>
                  if bool_decide (0 <= k) then
                    _ ← snapshot (GetOwnConstantElement_snapshot hint k);
                    if negb (GetOwnConstantElement heap hint k)
                       && IsJSArray heap hint
                    then snapshot (GetOwnCowElement hint k)
                    else mret tt
                  else mret tt
              | None => mret tt
              end)
          else mret tt);
    a ← accumulator; write a Clear.

Definition ProcessNamedPropertyAccess (receiver : Hints) (name : Handle)
  (slot : FeedbackSlot) (mode : AccessMode) : M unit :=
  bailout ← BailoutOnUninitialized slot;
  if bailout : bool then mret tt
  else
    _ ← ProcessFeedbackForPropertyAccess slot mode (Some name);
    relevant ← lift (GetRelevantReceiverMaps (ordered (maps receiver)));
    _ ← for_each relevant (fun map => ProcessMapForNamedPropertyAccess map name);
    let global_proxy := global_proxy_object heap in
    _ ← for_each (ordered (constants receiver)) (fun hint =>
          _ ← snapshot (ObjectRef_new hint);
          _ ← (if ObjectRef_equals heap hint global_proxy
               then snapshot (GetPropertyCell name) else mret tt);
          if bool_decide (mode = kLoad) && IsJSFunction heap hint
             && ObjectRef_equals heap name (prototype_string heap)
          then snapshot (JSFunctionRef_Serialize hint)
          else mret tt);
    a ← accumulator; write a Clear.

Definition VisitNamedProperty (receiver : Register) (name : Handle)
  (slot : FeedbackSlot) (mode : AccessMode) : M unit :=
  r ← register receiver; receiver_hints ← read r;
  ProcessNamedPropertyAccess receiver_hints name slot mode.

Definition VisitLdaKeyedProperty (receiver : Register) (slot : FeedbackSlot)
  : M unit :=
  a ← accumulator; key ← read a;
  r ← register receiver; receiver_hints ← read r;
  ProcessKeyedPropertyAccess receiver_hints key slot kLoad.

Definition VisitTestIn (key : Register) (slot : FeedbackSlot) : M unit :=
  a ← accumulator; receiver_hints ← read a;
  r ← register key; key_hints ← read r;
  ProcessKeyedPropertyAccess receiver_hints key_hints slot kHas.

Definition VisitKeyedStore (receiver key : Register) (slot : FeedbackSlot)
  (mode : AccessMode) : M unit :=
  r ← register receiver; receiver_hints ← read r;
  k ← register key; key_hints ← read k;
  ProcessKeyedPropertyAccess receiver_hints key_hints slot mode.

(** The visitors the macros generate from the bytecode lists. *)
Definition VisitListed (l : BytecodeList) (current_offset jump_target : Z)
  : M unit :=
  match l with
  | CLEAR_ENVIRONMENT_LIST => clear_ephemeral_hints
  | CLEAR_ACCUMULATOR_LIST => a ← accumulator; write a Clear
  | CONDITIONAL_JUMPS_LIST => ProcessJump current_offset jump_target
  | UNCONDITIONAL_JUMPS_LIST =>
      _ ← ProcessJump current_offset jump_target;
      clear_ephemeral_hints
  | IGNORED_BYTECODE_LIST => mret tt
  | UNREACHABLE_BYTECODE_LIST => lift (Fatal UNREACHABLE)
  | KILL_ENVIRONMENT_LIST => modify_environment (Kill cfg)
  end.

(** The [switch] of [TraverseBytecode]. *)
Definition Visit (current_offset : Z) (bytecode : Bytecode) : M unit :=
  match bytecode with
  | LdaTrue => load_constant (true_value heap)
  | LdaFalse => load_constant (false_value heap)
  | LdaTheHole => load_constant (the_hole_value heap)
  | LdaUndefined => load_constant (undefined_value heap)
  | LdaNull => load_constant (null_value heap)
  | LdaZero => load_constant (smi_handle heap 0)
  | LdaSmi imm => load_constant (smi_handle heap imm)
  | LdaConstant constant => load_constant constant
  | Ldar reg => VisitLdar reg
  | Star reg => VisitStar reg
  | Mov src dst => VisitMov src dst
  | CreateClosure shared_info cell_index => VisitCreateClosure shared_info cell_index
  | GetSuperConstructor dst => VisitGetSuperConstructor dst
  | CallUndefinedReceiver callee first n slot =>
      ProcessCallVarArgs callee first n slot kNullOrUndefined false
  | CallUndefinedReceiver0 callee slot => call_with callee None [] slot
  | CallUndefinedReceiver1 callee arg0 slot => call_with callee None [arg0] slot
  | CallUndefinedReceiver2 callee arg0 arg1 slot =>
      call_with callee None [arg0; arg1] slot
  | CallAnyReceiver callee first n slot =>
      ProcessCallVarArgs callee first n slot kAny false
  | CallProperty callee first n slot =>
      ProcessCallVarArgs callee first n slot kNullOrUndefined false
  | CallProperty0 callee receiver slot => call_with callee (Some receiver) [] slot
  | CallProperty1 callee receiver arg0 slot =>
      call_with callee (Some receiver) [arg0] slot
  | CallProperty2 callee receiver arg0 arg1 slot =>
      call_with callee (Some receiver) [arg0; arg1] slot
  | CallWithSpread callee first n slot =>
      ProcessCallVarArgs callee first n slot kAny true
  | Construct callee first n slot => construct_with callee first n slot false
  | ConstructWithSpread callee first n slot =>
      construct_with callee first n slot true
  | LdaGlobal slot => VisitLdaGlobal slot
  | LdaGlobalInsideTypeof slot => VisitLdaGlobal slot
  | LdaLookupGlobalSlot slot => VisitLdaGlobal slot
  | LdaLookupGlobalSlotInsideTypeof slot => VisitLdaGlobal slot
  | StaGlobal slot => VisitStaGlobal slot
  | LdaNamedProperty receiver name slot => VisitNamedProperty receiver name slot kLoad
  | StaNamedProperty receiver name slot => VisitNamedProperty receiver name slot kStore
  | StaNamedOwnProperty receiver name slot =>
      VisitNamedProperty receiver name slot kStoreInLiteral
  | LdaKeyedProperty receiver slot => VisitLdaKeyedProperty receiver slot
  | TestIn key slot => VisitTestIn key slot
  | StaKeyedProperty receiver key slot => VisitKeyedStore receiver key slot kStore
  | StaInArrayLiteral receiver key slot =>
      VisitKeyedStore receiver key slot kStoreInLiteral
  | Return => VisitReturn
  | SwitchOnSmiNoFeedback targets => VisitSwitchOnSmiNoFeedback targets
  | Listed l _ jump_target => VisitListed l current_offset jump_target
  | Unsupported _ => clear_ephemeral_hints
  end.

(** ** The walk *)

(** The loop of [TraverseBytecode] over what is left of the bytecode, with
    the iterator of the handler matcher. *)
Fixpoint traverse (code : list (Z * Bytecode)) (handlers_iterator : list Z)
  : M unit :=
  match code with
  | [] => mret tt
  | (current_offset, bytecode) :: rest =>
      _ ← IncorporateJumpTargetEnvironment current_offset;
      e ← environment;
      if IsDead e then
        if is_kResumeGenerator bytecode then
          _ ← modify_environment (Revive cfg);
          _ ← Visit current_offset bytecode;
          traverse rest handlers_iterator
        else
          let '(is_start, handlers_iterator) :=
            CurrentBytecodeIsExceptionHandlerStart current_offset
                                                   handlers_iterator in
          if is_start : bool then
            _ ← modify_environment (Revive cfg);
            _ ← Visit current_offset bytecode;
            traverse rest handlers_iterator
          else traverse rest handlers_iterator
      else
        _ ← Visit current_offset bytecode;
        traverse rest handlers_iterator
  end.

Definition TraverseBytecode : M unit :=
  e ← environment;
  let array := GetBytecodeArray heap (shared (function_ e)) in
  _ ← snapshot (BytecodeArrayRef_new (shared (function_ e)));
  _ ← modify_broker (record_walk (function_ e));
  traverse (bytecodes array) (ExceptionHandlerMatcher_new array).

Definition Run : M Hints :=
  e ← environment;
  let shared_info := shared (function_ e) in
  let vector := feedback_vector (function_ e) in
  b ← get_broker;
  if IsSerializedForCompilation b shared_info vector then mret ∅
  else
    _ ← modify_broker (SetSerializedForCompilation shared_info vector);
    f ← flags;
    _ ← (if kCollectSourcePositions f
         then snapshot (EnsureSourcePositionsAvailable shared_info)
         else mret tt);
    _ ← snapshot (FeedbackVectorRef_SerializeSlots vector);
    _ ← TraverseBytecode;
    e ← environment;
    mret (return_value_hints_ e).

End SerializerOps.

(** ** Tying the recursion

    A child serializer runs the same [Run].  The depth of the recursion
    into callees is bounded by the fuel. *)
Fixpoint RunSerializer `{RegisterLayout} (cfg : BuildConfig) (heap : Heap)
  (fuel : nat) (s : Serializer) (b : JSHeapBroker)
  : Outcome (Hints * JSHeapBroker) :=
  match fuel with
  | O => OutOfFuel
  | S fuel' =>
      match Run cfg heap (RunSerializer cfg heap fuel') (MkState s b) with
      | Done (h, st) => Done (h, broker st)
      | Fatal e => Fatal e
      | OutOfFuel => OutOfFuel
      end
  end.

(** ** A sample world

    A register layout in the style of the interpreter's frame (parameters
    and the two frame registers have negative indices) and small
    environments, used to run the definitions on concrete inputs. *)
Definition sample_layout : RegisterLayout := {|
  is_valid r := negb (bool_decide (index r = 2147483647));
  is_function_closure r := bool_decide (index r = -3);
  is_current_context r := bool_decide (index r = -2);
  is_parameter r := bool_decide (index r < 0);
  ToParameterIndex r parameter_count := index r + 7 + parameter_count - 1;
|}.

Definition release_build : BuildConfig := MkBuildConfig false false.
Definition debug_build : BuildConfig := MkBuildConfig true true.

Definition sample_function : FunctionBlueprint := MkBlueprint 20%N 30%N.

Definition hints_of_constant (c : Handle) : Hints := AddConstant c ∅.

(** One parameter and one register: slots [a0 | r0 | accumulator | context]. *)
Definition sample_environment : Environment :=
  MkEnvironment sample_function 1 1 (hints_of_constant 10%N) ∅
                [∅; hints_of_constant 8%N; ∅; ∅].

Definition sample_dead_environment : Environment :=
  with_ephemeral_hints [] sample_environment.

Definition sample_returning_environment : Environment :=
  with_return_value_hints (hints_of_constant 9%N) sample_environment.

(** A heap with two functions: the closure 10 (shared info 20, vector 30)
    and the function it creates and calls (shared info 21, vector 31);
    the arrays of the shared infos are a parameter. *)
Definition sample_heap (arrays : Handle -> BytecodeArray) : Heap := {|
  undefined_value := 1%N; true_value := 2%N; false_value := 3%N;
  null_value := 4%N; the_hole_value := 5%N; prototype_string := 6%N;
  smi_handle n := (1000 + Z.to_N n)%N;
  IsJSFunction h := bool_decide (10 <= h < 20)%N;
  IsUndefined h := bool_decide (h = 1%N);
  IsJSReceiver h := false; IsJSPromise h := false; IsJSTypedArray h := false;
  IsJSArray h := false; IsHeapObject h := false;
  IsFeedbackVector h := bool_decide (30 <= h < 40)%N;
  AsSmi h := if bool_decide (1000 <= h)%N then Some (Z.of_N h - 1000) else None;
  object_map h := 50%N;
  ObjectRef_equals a b := bool_decide (a = b);
  function_shared h := (h + 10)%N;
  has_feedback_vector h := true;
  function_feedback_vector h := (h + 20)%N;
  GetBytecodeArray := arrays;
  IsApiFunction h := false; HasBuiltinId h := false;
  builtin_id h := kOtherBuiltin;
  IsInlineable h := true; function_data h := 0%N;
  has_call_code h := false; accept_any_receiver h := false;
  is_signature_undefined h := false;
  map_prototype h := 0%N; is_callable h := false; is_constructor h := false;
  is_access_check_needed h := false; is_abandoned_prototype_map h := false;
  is_deprecated h := false; IsJSPromiseMap h := false;
  IsMapOfCurrentGlobalProxy h := false;
  TryUpdate h := Some h;
  global_proxy_object := 7%N;
  closure_feedback_cell_value v i := (30 + Z.to_N i)%N;
  nexus_IsUninitialized s := bool_decide (s.2 = 5) || bool_decide (s.2 = -1);
  nexus_ic_state s := MONOMORPHIC;
  nexus_GetHeapObject s := None;
  nexus_ExtractMaps s := [];
  nexus_GetKeyType s := PROPERTY;
  vector_slot_pair_IsValid s := true;
  GetNameFeedback s := None;
  broker_ProcessFeedbackForGlobalAccess s := None;
  broker_ProcessFeedbackMapsForElementAccess l := l;
  ComputePropertyAccessInfo m n a := 0%N;
  GetOwnConstantElement h k := false;
|}.

Definition invalid_register : Register := MkRegister 2147483647.

(** The caller loads a number, creates the closure of the callee and calls
    it with an undefined receiver; the callee returns its receiver. *)
Definition sample_arrays (h : Handle) : BytecodeArray :=
  if bool_decide (h = 20%N) then
    MkBytecodeArray 1 2 invalid_register
      [(0, LdaSmi 7); (2, Star (MkRegister 0)); (4, CreateClosure 21%N 1);
       (6, Star (MkRegister 1));
       (8, CallUndefinedReceiver0 (MkRegister 1) 3); (10, Return)] []
  else
    MkBytecodeArray 2 1 (MkRegister 0)
      [(0, Ldar (MkRegister (-8))); (2, Return)] [].

Definition empty_broker : JSHeapBroker := MkBroker ∅ ∅ [] [].

Definition sample_flags : Flags := MkFlags true false false.

Definition sample_state : State :=
  MkState (MkSerializer sample_environment ∅ sample_flags) empty_broker.

(** An environment has its layout when it is dead or its ephemeral vector
    has the size its counts ask for. *)
Definition has_layout (e : Environment) : Prop :=
  IsDead e = true
  ∨ length (ephemeral_hints_ e) = Z.to_nat (ephemeral_hints_size e).

(** ** Relations between the states of a walk *)

(** [kept E B] relates two states of a serializer whose environments are
    related by [E] and whose brokers are related by [B]; [post E B P m]
    says that a run of [m] that returns relates its two ends so and
    returns a value in [P]. *)
Definition kept (E : relation Environment) (B : relation JSHeapBroker)
  (s s' : State) : Prop :=
  E (environment_ (serializer s)) (environment_ (serializer s'))
  ∧ B (broker s) (broker s').

Definition post (E : relation Environment) (B : relation JSHeapBroker)
  {A : Type} (P : A -> Prop) (m : M A) : Prop :=
  forall s a s', m s = Done (a, s') -> kept E B s s' ∧ P a.

(** The instructions that write to the register they name last. *)
Definition writes_closure `{RegisterLayout} (b : Bytecode) : bool :=
  match b with
  | Star reg => is_function_closure reg
  | Mov _ dst => is_function_closure dst
  | GetSuperConstructor dst => is_function_closure dst
  | _ => false
  end.

Definition same_closure_hints (e e' : Environment) : Prop :=
  closure_hints_ e' = closure_hints_ e.

Definition any_broker (b b' : JSHeapBroker) : Prop := True.

Definition any_environment (e e' : Environment) : Prop := True.

(** Every function the broker has seen walked was walked once and is
    marked as serialized. *)
Definition walked_once (b : JSHeapBroker) : Prop :=
  NoDup (walks_ b)
  ∧ forall f, f ∈ walks_ b -> f ∈ serialized_for_compilation_ b.

(** From [b] to [b'] marks and walks are only added, and no function is
    walked a second time. *)
Definition marks_grow (b b' : JSHeapBroker) : Prop :=
  serialized_for_compilation_ b ⊆ serialized_for_compilation_ b'
  ∧ (forall f, f ∈ walks_ b -> f ∈ walks_ b')
  ∧ (walked_once b -> walked_once b').

(** A function that stores the accumulator into the closure register. *)
Definition closure_writing_arrays (h : Handle) : BytecodeArray :=
  MkBytecodeArray 1 1 invalid_register
    [(0, LdaZero); (1, Star (MkRegister (-3)))] [].

(** The return value hints of [e'] include the ones of [e]. *)
Definition return_value_hints_grow (e e' : Environment) : Prop :=
  Includes (return_value_hints_ e') (return_value_hints_ e) = true.

(** [e'] is an environment of the function of [e], with its counts. *)
Definition same_function (e e' : Environment) : Prop :=
  function_ e' = function_ e
  ∧ parameter_count_ e' = parameter_count_ e
  ∧ register_count_ e' = register_count_ e.

(** From [b] to [b'] the broker only gains: every source with processed
    feedback keeps having some, and the snapshots and the walks recorded
    so far stay the beginning of the record. *)
Definition broker_grows (b b' : JSHeapBroker) : Prop :=
  dom (feedback_ b) ⊆ dom (feedback_ b')
  ∧ snapshots_ b `prefix_of` snapshots_ b'
  ∧ walks_ b `prefix_of` walks_ b'
  ∧ serialized_for_compilation_ b ⊆ serialized_for_compilation_ b'.

(** What [GetRelevantReceiverMaps] keeps of a map. *)
Definition relevant_map (heap : Heap) (map : Handle) : option Handle :=
  match TryUpdate heap map with
  | Some updated =>
      if is_abandoned_prototype_map heap updated then None else Some updated
  | None => None
  end.

(** The hints of the registers [first], [first + 1], ... of a range. *)
Definition register_range_hints `{RegisterLayout} (cfg : BuildConfig)
  (e : Environment) (first : Register) (count : nat)
  : list (Outcome HintsRef) :=
  (fun i : nat => register_hints cfg e (MkRegister (index first + Z.of_nat i)))
    <$> seq 0 count.

(** The answers of the handler matcher to a sequence of queries, the
    iterator of one query being handed to the next. *)
Fixpoint handler_starts (offsets : list Z) (handlers_iterator : list Z)
  : list bool :=
  match offsets with
  | [] => []
  | offset :: rest =>
      let '(is_start, handlers_iterator) :=
        CurrentBytecodeIsExceptionHandlerStart offset handlers_iterator in
      is_start :: handler_starts rest handlers_iterator
  end.

(** A caller that calls a function of four parameters with a receiver and
    a spread, [f(...7)]; the callee returns its last parameter. *)
Definition spread_arrays (h : Handle) : BytecodeArray :=
  if bool_decide (h = 20%N) then
    MkBytecodeArray 1 3 invalid_register
      [(0, LdaUndefined); (1, Star (MkRegister 1));
       (3, LdaSmi 7); (5, Star (MkRegister 2));
       (7, CreateClosure 21%N 1); (10, Star (MkRegister 0));
       (12, CallWithSpread (MkRegister 0) (MkRegister 1) 2 3);
       (17, Return)] []
  else
    MkBytecodeArray 4 0 invalid_register
      [(0, Ldar (MkRegister (-7))); (2, Return)] [].

(** ** Properties of hints *)

Lemma foldl_AddConstant (l : list Handle) (h : Hints) :
  foldl (fun acc x => AddConstant x acc) h l
  = MkHints (list_to_set l ∪ constants h) (maps h) (function_blueprints h).
Proof.
  revert h. induction l as [|x l IH]; intros h; simpl.
  - destruct h; simpl. f_equal. set_solver.
  - rewrite IH. simpl. f_equal. set_solver.
Qed.

Lemma foldl_AddMap (l : list Handle) (h : Hints) :
  foldl (fun acc x => AddMap x acc) h l
  = MkHints (constants h) (list_to_set l ∪ maps h) (function_blueprints h).
Proof.
  revert h. induction l as [|x l IH]; intros h; simpl.
  - destruct h; simpl. f_equal. set_solver.
  - rewrite IH. simpl. f_equal. set_solver.
Qed.

Lemma foldl_AddFunctionBlueprint (l : list FunctionBlueprint) (h : Hints) :
  foldl (fun acc x => AddFunctionBlueprint x acc) h l
  = MkHints (constants h) (maps h) (list_to_set l ∪ function_blueprints h).
Proof.
  revert h. induction l as [|x l IH]; intros h; simpl.
  - destruct h; simpl. f_equal. set_solver.
  - rewrite IH. simpl. f_equal. set_solver.
Qed.

Lemma list_to_set_ordered (s : gset Handle) : list_to_set (ordered s) = s.
Proof.
  unfold ordered. apply set_eq. intros x.
  rewrite elem_of_list_to_set, merge_sort_Permutation. apply elem_of_elements.
Qed.

Lemma list_to_set_ordered_blueprints (s : gset FunctionBlueprint) :
  list_to_set (ordered_blueprints s) = s.
Proof.
  unfold ordered_blueprints. apply set_eq. intros x.
  rewrite elem_of_list_to_set, merge_sort_Permutation. apply elem_of_elements.
Qed.

(** [Hints::Add] is the union of the three sets. *)
Lemma Add_union (other h : Hints) :
  Add other h = MkHints (constants other ∪ constants h)
                        (maps other ∪ maps h)
                        (function_blueprints other ∪ function_blueprints h).
Proof.
  unfold Add. rewrite foldl_AddFunctionBlueprint, foldl_AddMap, foldl_AddConstant.
  simpl. by rewrite list_to_set_ordered, list_to_set_ordered,
    list_to_set_ordered_blueprints.
Qed.

Lemma Add_idemp (h : Hints) : Add h h = h.
Proof. rewrite Add_union. destruct h; simpl. f_equal; set_solver. Qed.

Lemma Add_empty_l (h : Hints) : Add ∅ h = h.
Proof. rewrite Add_union. destruct h; simpl. f_equal; set_solver. Qed.

Lemma Includes_spec (h other : Hints) :
  Includes h other = true <->
  constants other ⊆ constants h ∧ maps other ⊆ maps h
  ∧ function_blueprints other ⊆ function_blueprints h.
Proof.
  unfold Includes. rewrite !andb_true_iff, !bool_decide_eq_true. tauto.
Qed.

Lemma Includes_refl (h : Hints) : Includes h h = true.
Proof. apply Includes_spec. done. Qed.

Lemma Equals_refl (h : Hints) : Equals h h = true.
Proof. unfold Equals. by rewrite Includes_refl. Qed.

(** Adding what is included already changes nothing. *)
Lemma Add_included (h other : Hints) :
  Includes h other = true -> Add other h = h.
Proof.
  rewrite Includes_spec, Add_union. intros (Hc & Hm & Hb).
  destruct h; simpl in *. f_equal; set_solver.
Qed.

Lemma zip_with_Add_diag (v : list Hints) :
  zip_with (fun mine theirs => Add theirs mine) v v = v.
Proof. induction v as [|x v IH]; simpl; [done|]. by rewrite Add_idemp, IH. Qed.

(** ** Properties of the environment *)

Lemma bind_Done_inv {A B} (m : Outcome A) (f : A -> Outcome B) (b : B) :
  m ≫= f = Done b -> exists a, m = Done a ∧ f a = Done b.
Proof. destruct m; simpl; intros; try discriminate. eauto. Qed.

Lemma CHECK_Done_inv site cond u : CHECK site cond = Done u -> cond = true.
Proof. unfold CHECK. by destruct cond. Qed.

Lemma ExportRegisterHints_loop_length `{RegisterLayout} cfg e reg_base n :
  forall i dst out,
    ExportRegisterHints_loop cfg e reg_base i n dst = Done out ->
    length out = (length dst + n)%nat ∧ take (length dst) out = dst.
Proof.
  induction n as [|n IH]; intros i dst out Hrun; simpl in Hrun.
  - injection Hrun as <-. split; [lia|]. by rewrite firstn_all.
  - apply bind_Done_inv in Hrun as (r & _ & Hrun).
    apply IH in Hrun as [Hlen Hpre]. rewrite length_app in *. simpl in *.
    split; [lia|].
    apply (f_equal (take (length dst))) in Hpre.
    rewrite take_take, Nat.min_l in Hpre by lia.
    by rewrite Hpre, take_app_length.
Qed.

(** What [ExportRegisterHints] does for any count that fits an [int]:
    the vector grows by twice the count, [count] empty hints first. *)
Lemma ExportRegisterHints_length `{RegisterLayout} cfg e first count dst out :
  0 <= count < 2 ^ 31 ->
  ExportRegisterHints cfg e first count dst = Done out ->
  length out = (length dst + 2 * Z.to_nat count)%nat
  ∧ take (length dst + Z.to_nat count) out = dst ++ replicate (Z.to_nat count) ∅.
Proof.
  intros Hcount Hrun. unfold ExportRegisterHints in Hrun.
  assert (static_cast_int count = count) as Hcast.
  { unfold static_cast_int. rewrite Z.mod_small; lia. }
  rewrite Hcast in Hrun.
  apply ExportRegisterHints_loop_length in Hrun as [Hlen Hpre].
  rewrite length_resize in Hlen, Hpre. split; [lia|].
  rewrite Hpre. rewrite resize_ge by lia. f_equal. f_equal. lia.
Qed.

(** C1: at the call [ExportRegisterHints(r0, 1, dst)] with an empty [dst],
    the source leaves two elements in [dst], an empty [Hints] followed by
    the hints of [r0], where the claim has the hints of [r0] alone. *)
Theorem ExportRegisterHints_one_register :
  @ExportRegisterHints sample_layout release_build sample_environment
                       (MkRegister 0) 1 []
  = Done [∅; hints_of_constant 8%N].
Proof. vm_compute. reflexivity. Qed.

(** C2, as stated, fails: the receiver is dead and has no return value
    hints, the other environment has one; after [Merge] the receiver has
    the ephemeral hints of the other one, and still no return value hints. *)
Lemma Merge_dead_keeps_return_value_hints :
  parameter_count_ sample_dead_environment
    = parameter_count_ sample_returning_environment
  ∧ register_count_ sample_dead_environment
    = register_count_ sample_returning_environment
  ∧ IsDead sample_dead_environment = true
  ∧ exists e',
      Merge release_build sample_dead_environment sample_returning_environment
        = Done e'
      ∧ ephemeral_hints_ e' = ephemeral_hints_ sample_returning_environment
      ∧ return_value_hints_ e'
        ≠ Add (return_value_hints_ sample_returning_environment)
              (return_value_hints_ sample_dead_environment).
Proof.
  repeat split.
  eexists. split; [vm_compute; reflexivity|]. split; [reflexivity|].
  vm_compute. discriminate.
Qed.

(** C2, amended: a dead receiver merged with an alive environment of the
    same counts takes over the ephemeral hints of the other one and keeps
    all its other fields, its return value hints among them; these are the
    union with the other's return value hints when they include them
    already, which is what the [SLOW_DCHECK] of the source asserts. *)
Theorem Merge_dead_adopts_ephemeral_hints (cfg : BuildConfig)
  (e other : Environment) :
  parameter_count_ e = parameter_count_ other ->
  register_count_ e = register_count_ other ->
  IsDead e = true ->
  IsDead other = false ->
  (slow_dchecks cfg = true ->
   Equals (closure_hints_ e) (closure_hints_ other) = true
   ∧ Includes (return_value_hints_ e) (return_value_hints_ other) = true) ->
  Merge cfg e other = Done (with_ephemeral_hints (ephemeral_hints_ other) e)
  ∧ (Includes (return_value_hints_ e) (return_value_hints_ other) = true ->
     return_value_hints_ (with_ephemeral_hints (ephemeral_hints_ other) e)
     = Add (return_value_hints_ other) (return_value_hints_ e)).
Proof.
  intros Hpc Hrc Hdead Halive Hslow. split.
  - unfold Merge.
    rewrite (bool_decide_eq_true_2 _ Hpc), (bool_decide_eq_true_2 _ Hrc).
    simpl. rewrite Hdead. unfold SLOW_DCHECK.
    assert (IsDead (with_ephemeral_hints (ephemeral_hints_ other) e) = false)
      as -> by done.
    destruct (slow_dchecks cfg); [|done].
    destruct Hslow as [-> Hincl]; [done|]. simpl. by rewrite Hincl.
  - intros Hincl. simpl. by rewrite Add_included.
Qed.

Lemma Merge_dead_adopts_ephemeral_hints_witness :
  Merge debug_build sample_dead_environment sample_environment
  = Done (with_ephemeral_hints (ephemeral_hints_ sample_environment)
                               sample_dead_environment).
Proof.
  apply (Merge_dead_adopts_ephemeral_hints debug_build sample_dead_environment
           sample_environment); [reflexivity..|].
  intros _. split; vm_compute; reflexivity.
Defined.

(** C7, as stated, fails: in a debug build the second [Kill] runs into
    [DCHECK(!IsDead())]. *)
Lemma Kill_twice_fails_in_debug_build :
  exists e',
    Kill debug_build sample_environment = Done e'
    ∧ Kill debug_build e' = Fatal Kill_DCHECK_not_dead.
Proof. eexists. split; vm_compute; reflexivity. Qed.

(** C7, amended: where [DCHECK]s are compiled out, [Kill] on any
    environment gives a dead environment on which [Kill] changes nothing;
    where they are compiled in, [Kill] on a dead environment fails its
    [DCHECK].  [Kill] and then [Revive] on an alive environment with its
    layout gives an ephemeral vector of the length it had, all hints empty. *)
Theorem Kill_idempotent_and_Revive_restores (cfg : BuildConfig)
  (e : Environment) :
  (debug cfg = false ->
   exists e', Kill cfg e = Done e' ∧ IsDead e' = true ∧ Kill cfg e' = Done e')
  ∧ (debug cfg = true -> IsDead e = true ->
     Kill cfg e = Fatal Kill_DCHECK_not_dead)
  ∧ (IsDead e = false ->
     length (ephemeral_hints_ e) = Z.to_nat (ephemeral_hints_size e) ->
     exists e' e'',
       Kill cfg e = Done e' ∧ IsDead e' = true
       ∧ Revive cfg e' = Done e''
       ∧ length (ephemeral_hints_ e'') = length (ephemeral_hints_ e)
       ∧ Forall (fun h => h = ∅) (ephemeral_hints_ e'')
       ∧ closure_hints_ e'' = closure_hints_ e
       ∧ return_value_hints_ e'' = return_value_hints_ e).
Proof.
  split; [|split].
  - intros Hrel. exists (with_ephemeral_hints [] e).
    unfold Kill, DCHECK. rewrite Hrel. done.
  - intros Hdbg Hdead. unfold Kill, DCHECK, CHECK. by rewrite Hdbg, Hdead.
  - intros Halive Hlen.
    exists (with_ephemeral_hints [] e).
    exists (with_ephemeral_hints
              (replicate (Z.to_nat (ephemeral_hints_size e)) ∅) e).
    assert (Z.to_nat (ephemeral_hints_size e) ≠ 0%nat) as Hsize.
    { rewrite <- Hlen. unfold IsDead in Halive.
      by destruct (ephemeral_hints_ e). }
    split; [|split; [done|split; [|split; [|split; [|done]]]]].
    + unfold Kill, DCHECK, CHECK. rewrite Halive. by destruct (debug cfg).
    + unfold Revive, DCHECK, CHECK. simpl.
      change (ephemeral_hints_size (with_ephemeral_hints [] e))
        with (ephemeral_hints_size e).
      rewrite resize_nil.
      assert (IsDead (with_ephemeral_hints
                        (replicate (Z.to_nat (ephemeral_hints_size e)) ∅)
                        (with_ephemeral_hints [] e))
              = false) as ->.
      { unfold IsDead. simpl.
        by destruct (Z.to_nat (ephemeral_hints_size e)). }
      by destruct (debug cfg).
    + simpl. by rewrite length_replicate.
    + simpl. apply Forall_replicate. done.
Qed.

Lemma Kill_idempotent_and_Revive_restores_witness :
  exists e' e'',
    Kill debug_build sample_environment = Done e' ∧ IsDead e' = true
    ∧ Revive debug_build e' = Done e''
    ∧ length (ephemeral_hints_ e'') = length (ephemeral_hints_ sample_environment)
    ∧ Forall (fun h => h = ∅) (ephemeral_hints_ e'')
    ∧ closure_hints_ e'' = closure_hints_ sample_environment
    ∧ return_value_hints_ e'' = return_value_hints_ sample_environment.
Proof.
  apply (Kill_idempotent_and_Revive_restores debug_build sample_environment);
    reflexivity.
Defined.

(** C8, as stated, fails: [Merge] of a dead environment with its copy stops
    at [CHECK(!IsDead())]. *)
Lemma Merge_dead_with_itself_fails :
  IsDead sample_dead_environment = true
  ∧ Merge release_build sample_dead_environment sample_dead_environment
    = Fatal Merge_CHECK_not_dead.
Proof. split; vm_compute; reflexivity. Qed.

(** C8, amended: [Merge] of an alive environment with a copy of itself
    leaves it as it is. *)
Theorem Merge_alive_with_itself (cfg : BuildConfig) (e : Environment) :
  IsDead e = false -> Merge cfg e e = Done e.
Proof.
  intros Halive. unfold Merge.
  rewrite !bool_decide_eq_true_2 by reflexivity. simpl.
  unfold SLOW_DCHECK. rewrite Equals_refl, Halive.
  assert (CHECK Merge_CHECK_EQ_size true = Done tt) as Hck by done.
  destruct (slow_dchecks cfg); simpl;
    rewrite zip_with_Add_diag, Add_idemp; by destruct e.
Qed.

Lemma Merge_alive_with_itself_witness :
  Merge debug_build sample_environment sample_environment
  = Done sample_environment.
Proof. apply (Merge_alive_with_itself debug_build sample_environment). reflexivity. Defined.

(** C10: for two environments of the same function, each with its layout,
    [Merge] stops at the check of the two vector sizes exactly when the
    receiver is alive and the other environment is dead; in particular it
    does so whenever an alive receiver meets a dead environment, and never
    when the other one is alive or the receiver is dead. *)
Theorem Merge_size_check_fails_iff (cfg : BuildConfig) (e other : Environment) :
  parameter_count_ e = parameter_count_ other ->
  register_count_ e = register_count_ other ->
  has_layout e -> has_layout other ->
  (slow_dchecks cfg = true ->
   Equals (closure_hints_ e) (closure_hints_ other) = true) ->
  (Merge cfg e other = Fatal Merge_CHECK_EQ_size
   <-> IsDead e = false ∧ IsDead other = true)
  ∧ (Merge cfg e other ≠ Fatal Merge_CHECK_EQ_size
     <-> IsDead other = false ∨ IsDead e = true).
Proof.
  intros Hpc Hrc He Ho Hslow.
  assert (Merge cfg e other = Fatal Merge_CHECK_EQ_size
          <-> IsDead e = false ∧ IsDead other = true) as Hiff.
  { unfold Merge.
    rewrite (bool_decide_eq_true_2 _ Hpc), (bool_decide_eq_true_2 _ Hrc).
    simpl. unfold SLOW_DCHECK.
    assert ((if slow_dchecks cfg
             then CHECK Merge_SLOW_DCHECK_closure_hints
                    (Equals (closure_hints_ e) (closure_hints_ other))
             else Done tt) = Done tt) as ->.
    { destruct (slow_dchecks cfg); [|done]. by rewrite Hslow. }
    simpl. destruct (IsDead e) eqn:Hde.
    - split; [|intros [? _]; done].
      destruct (slow_dchecks cfg); simpl;
        repeat match goal with
               | |- context [CHECK ?s ?c] => destruct c; simpl
               end; discriminate.
    - destruct (IsDead other) eqn:Hdo.
      + split; [done|intros _].
        rewrite bool_decide_eq_false_2; [done|].
        unfold IsDead in *.
        destruct (ephemeral_hints_ e), (ephemeral_hints_ other); done.
      + split; [|intros [_ ?]; done].
        rewrite bool_decide_eq_true_2; [done|].
        destruct He as [He|He]; [congruence|].
        destruct Ho as [Ho|Ho]; [congruence|].
        rewrite He, Ho. unfold ephemeral_hints_size, current_context_index,
          accumulator_index. by rewrite Hpc, Hrc. }
  split; [exact Hiff|].
  rewrite Hiff. destruct (IsDead e), (IsDead other); naive_solver.
Qed.

Lemma Merge_size_check_fails_iff_witness :
  Merge debug_build sample_environment sample_dead_environment
  = Fatal Merge_CHECK_EQ_size.
Proof.
  apply (Merge_size_check_fails_iff debug_build sample_environment
           sample_dead_environment); try reflexivity.
  - right. reflexivity.
  - left. reflexivity.
  - split; reflexivity.
Defined.

(** *** The inlined constructor *)

Lemma assign_from_lookup (xs : list Hints) :
  forall (i : nat) (v v' : list Hints),
    assign_from i xs v = Done v' ->
    length v' = length v
    ∧ forall j : nat,
        v' !! j = if bool_decide (i <= j < i + length xs)%nat
                  then xs !! (j - i)%nat else v !! j.
Proof.
  induction xs as [|x xs IH]; intros i v v' Hrun; simpl in Hrun.
  - injection Hrun as <-. split; [done|]. intros j.
    rewrite bool_decide_eq_false_2; [done|]. simpl. lia.
  - apply bind_Done_inv in Hrun as (v1 & Hset & Hrun).
    unfold vector_set in Hset. case_bool_decide as Hi; [|done].
    injection Hset as <-.
    apply IH in Hrun as [Hlen Hlook]. rewrite length_insert in Hlen.
    split; [done|]. intros j. rewrite Hlook. simpl length.
    destruct (decide (j = i)) as [->|Hne].
    + rewrite bool_decide_eq_false_2 by lia.
      rewrite bool_decide_eq_true_2 by lia.
      rewrite Nat.sub_diag. simpl. by apply list_lookup_insert_eq.
    + rewrite list_lookup_insert_ne by done.
      case_bool_decide as H1; case_bool_decide as H2; try lia; [|done].
      replace (j - i)%nat with (S (j - S i)) by lia. done.
Qed.

Lemma assign_from_Done (xs : list Hints) :
  forall (i : nat) (v : list Hints),
    (xs = [] ∨ i + length xs <= length v)%nat ->
    exists v', assign_from i xs v = Done v'.
Proof.
  induction xs as [|x xs IH]; intros i v Hlen; simpl; [eauto|].
  destruct Hlen as [|Hlen]; [done|]. simpl in Hlen.
  unfold vector_set. rewrite bool_decide_eq_true_2 by lia. simpl.
  apply IH. right. rewrite length_insert. lia.
Qed.

Lemma register_hints_local `{RegisterLayout} cfg e reg :
  is_function_closure reg = false ->
  is_current_context reg = false ->
  is_parameter reg = false ->
  0 <= parameter_count_ e + index reg < Z.of_nat (length (ephemeral_hints_ e)) ->
  register_hints cfg e reg
  = Done (EphemeralRef (Z.to_nat (parameter_count_ e + index reg))).
Proof.
  intros Hcl Hctx Hpar Hrange.
  unfold register_hints, RegisterToLocalIndex, DCHECK, CHECK, vector_ref.
  rewrite Hcl, Hctx, Hpar. simpl.
  destruct (debug cfg); simpl; by rewrite !bool_decide_eq_true_2 by lia.
Qed.

Lemma Environment_new_fields (heap : Heap) (function : CompilationSubject) :
  let array := GetBytecodeArray heap (shared (blueprint function)) in
  let e := Environment_new heap function in
  function_ e = blueprint function
  ∧ parameter_count_ e = parameter_count array
  ∧ register_count_ e = register_count array
  ∧ return_value_hints_ e = ∅
  ∧ ephemeral_hints_ e
    = replicate (Z.to_nat (parameter_count array + register_count array + 1 + 1)) ∅.
Proof. unfold Environment_new. by destruct (closure function). Qed.

(** C9: for a bytecode array with non-negative counts whose incoming
    new.target register, when there is one, is a register of the function,
    the inlined constructor gives an environment whose parameter slots
    below the number of arguments hold the arguments and whose parameter
    slots from the number of arguments on hold the one hint of the
    undefined constant. *)
Theorem Environment_inlined_parameters `{RegisterLayout} (cfg : BuildConfig)
  (heap : Heap) (function : CompilationSubject) (new_target : option Hints)
  (arguments : list Hints) :
  let array := GetBytecodeArray heap (shared (blueprint function)) in
  let new_target_reg := incoming_new_target_or_generator_register array in
  0 <= parameter_count array ->
  0 <= register_count array ->
  (is_valid new_target_reg = true ->
   is_function_closure new_target_reg = false
   ∧ is_current_context new_target_reg = false
   ∧ is_parameter new_target_reg = false
   ∧ 0 <= index new_target_reg < register_count array) ->
  exists e,
    Environment_inlined cfg heap function new_target arguments = Done e
    ∧ (forall (i : nat) (a : Hints),
         (i < Z.to_nat (parameter_count array))%nat ->
         arguments !! i = Some a ->
         ephemeral_hints_ e !! i = Some a)
    ∧ (forall i : nat,
         (length arguments <= i < Z.to_nat (parameter_count array))%nat ->
         ephemeral_hints_ e !! i = Some (AddConstant (undefined_value heap) ∅)).
Proof.
  intros array new_target_reg Hpc Hrc Hreg.
  destruct (Environment_new_fields heap function)
    as (Hfun & Hpce & Hrce & _ & Heph).
  fold array in Hpce, Hrce, Heph.
  unfold Environment_inlined.
  set (e0 := Environment_new heap function) in *.
  set (undef := AddConstant (undefined_value heap) ∅).
  set (n := Z.to_nat (parameter_count array)).
  assert (length (ephemeral_hints_ e0)
          = Z.to_nat (parameter_count array + register_count array + 1 + 1))
    as Hlen0 by (by rewrite Heph, length_replicate).
  rewrite Hpce. fold n.
  destruct (assign_from_Done (take (min (length arguments) n) arguments) 0
              (ephemeral_hints_ e0)) as [v1 Hv1].
  { right. rewrite length_take. lia. }
  rewrite Hv1. simpl.
  apply assign_from_lookup in Hv1 as [Hlen1 Hlook1].
  destruct (assign_from_Done (replicate (n - length arguments) undef)
              (length arguments) v1) as [v2 Hv2].
  { destruct (decide (n <= length arguments)%nat).
    - left. by replace (n - length arguments)%nat with 0%nat by lia.
    - right. rewrite length_replicate. lia. }
  rewrite Hv2. simpl.
  apply assign_from_lookup in Hv2 as [Hlen2 Hlook2].
  rewrite length_replicate in Hlook2. rewrite length_take in Hlook1.
  assert (forall (i : nat) (a : Hints),
            (i < n)%nat -> arguments !! i = Some a -> v2 !! i = Some a) as Hargs.
  { intros i a Hi Ha. pose proof (lookup_lt_Some _ _ _ Ha) as Hia.
    rewrite Hlook2, bool_decide_eq_false_2 by lia.
    rewrite Hlook1, bool_decide_eq_true_2 by lia.
    rewrite Nat.sub_0_r, lookup_take_lt by lia. done. }
  assert (forall i : nat, (length arguments <= i < n)%nat -> v2 !! i = Some undef)
    as Hundef.
  { intros i Hi. rewrite Hlook2, bool_decide_eq_true_2 by lia.
    apply lookup_replicate_2. lia. }
  assert (forall i : nat, (n <= i)%nat -> v2 !! i = ephemeral_hints_ e0 !! i)
    as Hrest.
  { intros i Hi. rewrite Hlook2, bool_decide_eq_false_2 by lia.
    rewrite Hlook1, bool_decide_eq_false_2 by lia. done. }
  change (function_ (with_ephemeral_hints v2 e0)) with (function_ e0).
  rewrite Hfun. fold array. fold new_target_reg.
  destruct (is_valid new_target_reg) eqn:Hvalid; [|eauto].
  destruct Hreg as (Hcl & Hctx & Hpar & Hidx); [done|].
  rewrite (register_hints_local cfg (with_ephemeral_hints v2 e0) new_target_reg)
    by (try done; simpl; rewrite Hpce; lia).
  simpl. rewrite Hpce.
  set (slot := Z.to_nat (parameter_count array + index new_target_reg)).
  assert (n <= slot)%nat as Hslot by (unfold n, slot; lia).
  assert (v2 !! slot = Some ∅) as Hempty.
  { rewrite Hrest by done. rewrite Heph. apply lookup_replicate_2.
    unfold slot. lia. }
  rewrite Hempty. simpl.
  assert ((if debug cfg
           then CHECK Environment_DCHECK_new_target_empty (IsEmpty ∅)
           else Done tt) = Done tt) as -> by (by destruct (debug cfg)).
  simpl. destruct new_target as [t|]; [|eauto].
  eexists. split; [done|]. simpl.
  split.
  - intros i a Hi Ha. rewrite list_lookup_alter_ne by lia. by apply Hargs.
  - intros i Hi. rewrite list_lookup_alter_ne by lia. by apply Hundef.
Qed.

Lemma Environment_inlined_parameters_witness :
  exists e,
    @Environment_inlined sample_layout debug_build (sample_heap sample_arrays)
      (CompilationSubject_of_blueprint (MkBlueprint 21%N 31%N))
      (Some (hints_of_constant 9%N)) [hints_of_constant 1%N] = Done e
    ∧ (forall (i : nat) (a : Hints),
         (i < 2)%nat -> [hints_of_constant 1%N] !! i = Some a ->
         ephemeral_hints_ e !! i = Some a)
    ∧ (forall i : nat,
         (1 <= i < 2)%nat ->
         ephemeral_hints_ e !! i = Some (AddConstant 1%N ∅)).
Proof.
  apply (@Environment_inlined_parameters sample_layout debug_build
           (sample_heap sample_arrays)
           (CompilationSubject_of_blueprint (MkBlueprint 21%N 31%N))
           (Some (hints_of_constant 9%N)) [hints_of_constant 1%N]).
  - vm_compute. discriminate.
  - vm_compute. discriminate.
  - intros _. vm_compute. repeat split; discriminate.
Defined.

(** ** Properties of the serializer *)

(** Running the monad one layer at a time. *)
Ltac mcbv :=
  cbv [mbind M_bind Outcome_bind mret M_ret Outcome_ret environment flags
       get_broker lift modify_environment modify_broker
       jump_target_environments set_jump_target_environments snapshot];
  cbn [serializer environment_ flags_ broker jump_target_environments_].

(** C4, as stated, fails: the flag is set, this is no OSR and the nexus of
    the slot reports to be uninitialized, but the slot is the invalid one:
    the environment stays alive and the result is [false]. *)
Lemma BailoutOnUninitialized_invalid_slot :
  kBailoutOnUninitialized (flags_ (serializer sample_state)) = true
  ∧ kOsr (flags_ (serializer sample_state)) = false
  ∧ nexus_IsUninitialized (sample_heap sample_arrays)
      (feedback_vector (function_ (environment_ (serializer sample_state))), -1)
    = true
  ∧ BailoutOnUninitialized release_build (sample_heap sample_arrays) (-1)
      sample_state
    = Done (false, sample_state).
Proof. repeat split. Qed.

(** C4, amended: on an alive environment [BailoutOnUninitialized(slot)]
    returns [true] exactly when the flag is set, this is no OSR, the slot
    is valid and its nexus is uninitialized; the environment is dead
    afterwards exactly in that case.  Then the broker has
    [InsufficientFeedback] for the source unless it had an entry for it
    already, and otherwise nothing changes at all. *)
Theorem BailoutOnUninitialized_kills_iff (cfg : BuildConfig) (heap : Heap)
  (slot : FeedbackSlot) (s : State) :
  let e := environment_ (serializer s) in
  let f := flags_ (serializer s) in
  let source : FeedbackSource := (feedback_vector (function_ e), slot) in
  let bail := kBailoutOnUninitialized f && negb (kOsr f)
              && negb (IsInvalid slot) && nexus_IsUninitialized heap source in
  IsDead e = false ->
  (debug cfg = true -> HasFeedback (broker s) source = true ->
   is_kInsufficient (GetFeedback (broker s) source) = true) ->
  exists s',
    BailoutOnUninitialized cfg heap slot s = Done (bail, s')
    ∧ IsDead (environment_ (serializer s')) = bail
    ∧ (bail = false -> s' = s)
    ∧ (bail = true ->
       environment_ (serializer s') = with_ephemeral_hints [] e
       ∧ feedback_ (broker s')
         = if HasFeedback (broker s) source then feedback_ (broker s)
           else <[source := Some InsufficientFeedback]> (feedback_ (broker s))).
Proof.
  destruct s as [[e jt f] b]. cbn [serializer environment_ flags_ broker].
  intros Halive Hkind.
  set (source := (feedback_vector (function_ e), slot)) in *.
  assert (forall site, DCHECK cfg site true = Done tt) as Hdcheck.
  { intros site. unfold DCHECK. by destruct (debug cfg). }
  assert (DCHECK cfg BailoutOnUninitialized_DCHECK_EQ_kind
            (is_kInsufficient (GetFeedback b source)) = Done tt
          ∨ HasFeedback b source = false) as Hcached.
  { destruct (HasFeedback b source) eqn:Hhas; [left|by right].
    unfold DCHECK. destruct (debug cfg) eqn:Hd; [|done]. by rewrite Hkind. }
  unfold BailoutOnUninitialized, Kill. mcbv.
  fold source. rewrite Halive. cbn [negb]. rewrite !Hdcheck. mcbv.
  destruct (kBailoutOnUninitialized f); cbn [negb andb]; mcbv.
  2: { eexists. split; [done|]. by repeat split. }
  destruct (kOsr f); cbn [negb andb]; mcbv.
  { eexists. split; [done|]. by repeat split. }
  destruct (negb (IsInvalid slot) && nexus_IsUninitialized heap source) eqn:Hc;
    mcbv.
  2: { eexists. split; [done|]. by repeat split. }
  destruct (HasFeedback b source) eqn:Hhas; mcbv.
  - destruct Hcached as [->|]; [|done]. mcbv.
    rewrite Halive. cbn [negb]. rewrite !Hdcheck. mcbv.
    eexists. split; [reflexivity|]. by repeat split.
  - rewrite Halive. cbn [negb]. rewrite !Hdcheck. mcbv.
    eexists. split; [reflexivity|]. by repeat split.
Qed.

Lemma BailoutOnUninitialized_kills_iff_witness :
  exists s',
    BailoutOnUninitialized debug_build (sample_heap sample_arrays) 5 sample_state
    = Done (true, s')
    ∧ IsDead (environment_ (serializer s')) = true.
Proof.
  destruct (BailoutOnUninitialized_kills_iff debug_build
              (sample_heap sample_arrays) 5 sample_state)
    as (s' & Hrun & Hdead & _).
  - reflexivity.
  - intros _ Hhas. vm_compute in Hhas. discriminate.
  - exists s'. split; [exact Hrun | exact Hdead].
Defined.

(** C6: the spread of a [CallWithSpread] is not dropped.
    [RunChildSerializer] itself does what its flag asks for: with
    [with_spread] it builds the child serializer from the vector without
    its last element, resized to the parameter count of the callee, and
    runs it; with the spread alone the constructor of the child gets one
    empty [Hints] per parameter.  But [ProcessCallVarArgs] does not hand
    its [with_spread] on, so that [CallWithSpread] is processed as
    [CallAnyReceiver] is, and the flag reaches [RunChildSerializer] from
    [ConstructWithSpread] only.  For [f(...7)], whose callee returns its
    last parameter, the run returns the hints of the spread itself, where
    the call with the flag returns no hints. *)
Theorem CallWithSpread_keeps_the_spread :
  (forall (L : RegisterLayout) (cfg : BuildConfig) (heap : Heap)
          (child_Run : Serializer -> JSHeapBroker
                       -> Outcome (Hints * JSHeapBroker))
          (function : CompilationSubject) (new_target : option Hints)
          (arguments : list Hints) (spread : Hints) (s : State),
     let count :=
       Z.to_nat (parameter_count
                   (GetBytecodeArray heap (shared (blueprint function)))) in
     RunChildSerializer cfg heap child_Run function new_target
                        (arguments ++ [spread]) true s
     = (f ← flags;
        child ← Serializer_new_inlined cfg heap function new_target
                  (resize count ∅ arguments) (without_kOsr f);
        run_child child_Run child) s
     ∧ RunChildSerializer cfg heap child_Run function new_target [spread] true s
       = (f ← flags;
          child ← Serializer_new_inlined cfg heap function new_target
                    (replicate count ∅) (without_kOsr f);
          run_child child_Run child) s)
  ∧ (forall (L : RegisterLayout) (cfg : BuildConfig) (heap : Heap)
            (child_Run : Serializer -> JSHeapBroker
                         -> Outcome (Hints * JSHeapBroker))
            (current_offset : Z) (callee first : Register) (reg_count : Z)
            (slot : FeedbackSlot),
       Visit cfg heap child_Run current_offset
             (CallWithSpread callee first reg_count slot)
       = Visit cfg heap child_Run current_offset
               (CallAnyReceiver callee first reg_count slot))
  ∧ (exists b' : JSHeapBroker,
       @RunSerializer sample_layout debug_build (sample_heap spread_arrays) 2
         (MkSerializer
            (Environment_new (sample_heap spread_arrays)
               (MkSubject sample_function (Some 10%N)))
            ∅ sample_flags)
         empty_broker
       = Done (hints_of_constant 1007%N, b'))
  ∧ (exists s' : State,
       @RunChildSerializer sample_layout debug_build
         (sample_heap spread_arrays)
         (@RunSerializer sample_layout debug_build
            (sample_heap spread_arrays) 1)
         (CompilationSubject_of_blueprint (MkBlueprint 21%N 31%N)) None
         [∅; ∅; hints_of_constant 1%N; hints_of_constant 1007%N] true
         sample_state
       = Done (∅, s')).
Proof.
  split; [|split; [reflexivity|split]].
  - intros L cfg heap child_Run function new_target arguments spread s count.
    assert (forall args : list Hints,
              RunChildSerializer cfg heap child_Run function new_target
                                 (args ++ [spread]) true s
              = (f ← flags;
                 child ← Serializer_new_inlined cfg heap function new_target
                           (resize count ∅ args) (without_kOsr f);
                 run_child child_Run child) s) as Hcall.
    { intros args.
      rewrite RunChildSerializer_equation_1.
      assert (bool_decide (0 < length (args ++ [spread]))%nat = true) as Hlen.
      { apply bool_decide_eq_true_2. rewrite length_app. simpl. lia. }
      assert (pop_back (args ++ [spread]) = Done args) as Hpop.
      { unfold pop_back. rewrite removelast_last. by destruct args. }
      unfold DCHECK, CHECK. rewrite Hlen, Hpop. mcbv.
      rewrite RunChildSerializer_equation_2.
      by destruct (debug cfg). }
    split; [apply Hcall|].
    change [spread] with ([] ++ [spread]). by rewrite Hcall, resize_nil.
  - eexists. vm_compute. reflexivity.
  - eexists. vm_compute. reflexivity.
Qed.

(** ** What every walk keeps

    The relation [E] on environments and the relation [B] on brokers are
    kept by all the visitors, once they are kept by the few ways the
    source has to change an environment or the broker. *)
Create HintDb keeps.

Section Invariant.
Context `{RegisterLayout} (cfg : BuildConfig) (heap : Heap).
Variable child_Run : Serializer -> JSHeapBroker -> Outcome (Hints * JSHeapBroker).
Variable E : relation Environment.
Variable B : relation JSHeapBroker.
Variable ref_ok : HintsRef -> Prop.
Context `{!PreOrder E} `{!PreOrder B}.
Hypothesis E_ephemeral : forall e v, E e (with_ephemeral_hints v e).
Hypothesis E_return :
  forall e h,
    E e (with_return_value_hints (Add h (return_value_hints_ e)) e).
Hypothesis E_closure :
  forall e h, ref_ok ClosureRef -> E e (with_closure_hints h e).
Hypothesis ref_ok_ephemeral : forall i, ref_ok (EphemeralRef i).
Hypothesis B_feedback :
  forall b source feedback, B b (SetFeedback source feedback b).
Hypothesis B_snapshot : forall b x, B b (take_snapshot x b).
Hypothesis child_ok :
  forall child b h b', child_Run child b = Done (h, b') -> B b b'.

Local Abbreviation keeps := (post E B (fun _ => True)).

Lemma kept_refl s : kept E B s s.
Proof. split; reflexivity. Qed.

Lemma kept_trans s1 s2 s3 : kept E B s1 s2 -> kept E B s2 s3 -> kept E B s1 s3.
Proof. intros [] []. split; etransitivity; eauto. Qed.

Lemma post_ret {A} (P : A -> Prop) (a : A) : P a -> post E B P (mret a).
Proof.
  intros HP s a' s' Hrun. injection Hrun as <- <-. split; [apply kept_refl|done].
Qed.

Lemma post_bind {A C} (P : A -> Prop) (Q : C -> Prop) (m : M A) (f : A -> M C) :
  post E B P m -> (forall a, P a -> post E B Q (f a)) -> post E B Q (m ≫= f).
Proof.
  intros Hm Hf s c s' Hrun. unfold mbind, M_bind in Hrun.
  destruct (m s) as [[a s1]| |] eqn:Hms; try discriminate.
  destruct (Hm _ _ _ Hms) as [H1 HP].
  destruct (Hf a HP _ _ _ Hrun) as [H2 HQ].
  split; [eapply kept_trans; eauto|done].
Qed.

Lemma post_bind_keeps {A C} (Q : C -> Prop) (m : M A) (f : A -> M C) :
  keeps m -> (forall a, post E B Q (f a)) -> post E B Q (m ≫= f).
Proof. intros Hm Hf. eapply post_bind; [exact Hm|]. intros a _. apply Hf. Qed.

Lemma post_keeps {A} (P : A -> Prop) (m : M A) : post E B P m -> keeps m.
Proof. intros Hm s a s' Hrun. by destruct (Hm _ _ _ Hrun). Qed.

Lemma keeps_lift {A} (o : Outcome A) : keeps (lift o).
Proof.
  intros s a s' Hrun. unfold lift in Hrun. destruct o; try discriminate.
  injection Hrun as <- <-. split; [apply kept_refl|done].
Qed.

Lemma keeps_environment : keeps environment.
Proof. intros s a s' Hrun. injection Hrun as <- <-. split; [apply kept_refl|done]. Qed.

Lemma keeps_flags : keeps flags.
Proof. intros s a s' Hrun. injection Hrun as <- <-. split; [apply kept_refl|done]. Qed.

Lemma keeps_get_broker : keeps get_broker.
Proof. intros s a s' Hrun. injection Hrun as <- <-. split; [apply kept_refl|done]. Qed.

Lemma keeps_jump_target_environments : keeps jump_target_environments.
Proof. intros s a s' Hrun. injection Hrun as <- <-. split; [apply kept_refl|done]. Qed.

Lemma keeps_set_jump_target_environments j :
  keeps (set_jump_target_environments j).
Proof.
  intros s a s' Hrun. injection Hrun as <- <-. split; [|done].
  split; reflexivity.
Qed.

Lemma keeps_modify_environment (f : Environment -> Outcome Environment) :
  (forall e e', f e = Done e' -> E e e') -> keeps (modify_environment f).
Proof.
  intros Hf s a s' Hrun. unfold modify_environment in Hrun.
  destruct (f (environment_ (serializer s))) as [e'| |] eqn:Hfe; try discriminate.
  injection Hrun as <- <-. split; [|done]. split; [by apply Hf|reflexivity].
Qed.

Lemma keeps_modify_broker (f : JSHeapBroker -> JSHeapBroker) :
  (forall b, B b (f b)) -> keeps (modify_broker f).
Proof.
  intros Hf s a s' Hrun. injection Hrun as <- <-. split; [|done].
  split; [reflexivity|apply Hf].
Qed.

Lemma keeps_snapshot x : keeps (snapshot x).
Proof. apply keeps_modify_broker. intros b. apply B_snapshot. Qed.

Lemma keeps_for_each {A} (l : list A) (body : A -> M unit) :
  (forall x, keeps (body x)) -> keeps (for_each l body).
Proof.
  intros Hbody. induction l as [|x l IH]; simpl.
  - by apply post_ret.
  - apply post_bind_keeps; [apply Hbody|]. intros _. apply IH.
Qed.

Lemma keeps_run_child child : keeps (run_child child_Run child).
Proof.
  intros s h s' Hrun. unfold run_child in Hrun.
  destruct (child_Run child (broker s)) as [[h' b']| |] eqn:Hc; try discriminate.
  injection Hrun as <- <-. split; [|done].
  split; [reflexivity|]. eapply child_ok. exact Hc.
Qed.

(** The methods of the environment. *)
Lemma E_update r f e : ref_ok r -> E e (update r f e).
Proof. destruct r; simpl; intros Hr; [by apply E_closure|apply E_ephemeral]. Qed.

Lemma E_Kill e e' : Kill cfg e = Done e' -> E e e'.
Proof.
  unfold Kill. intros Hrun.
  apply bind_Done_inv in Hrun as (_ & _ & Hrun).
  apply bind_Done_inv in Hrun as (_ & _ & Hrun).
  injection Hrun as <-. apply E_ephemeral.
Qed.

Lemma E_Revive e e' : Revive cfg e = Done e' -> E e e'.
Proof.
  unfold Revive. intros Hrun.
  apply bind_Done_inv in Hrun as (_ & _ & Hrun).
  apply bind_Done_inv in Hrun as (_ & _ & Hrun).
  injection Hrun as <-. apply E_ephemeral.
Qed.

Lemma E_Merge e other e' : Merge cfg e other = Done e' -> E e e'.
Proof.
  unfold Merge. intros Hrun.
  apply bind_Done_inv in Hrun as (_ & _ & Hrun).
  apply bind_Done_inv in Hrun as (_ & _ & Hrun).
  apply bind_Done_inv in Hrun as (_ & _ & Hrun).
  destruct (IsDead e).
  - apply bind_Done_inv in Hrun as (_ & _ & Hrun).
    apply bind_Done_inv in Hrun as (_ & _ & Hrun).
    injection Hrun as <-. apply E_ephemeral.
  - apply bind_Done_inv in Hrun as (_ & _ & Hrun).
    injection Hrun as <-.
    etransitivity; [apply E_ephemeral|].
    apply (E_return (with_ephemeral_hints _ e)).
Qed.

Lemma keeps_write r f : ref_ok r -> keeps (write r f).
Proof.
  intros Hr. apply keeps_modify_environment.
  intros e e' He. injection He as <-. by apply E_update.
Qed.

Lemma keeps_clear_ephemeral_hints : keeps clear_ephemeral_hints.
Proof.
  apply keeps_modify_environment. intros e e' He. injection He as <-.
  apply E_ephemeral.
Qed.

Lemma post_accumulator : post E B ref_ok accumulator.
Proof.
  intros s r s' Hrun. unfold accumulator in Hrun.
  unfold mbind, M_bind, environment, lift in Hrun.
  destruct (accumulator_hints (environment_ (serializer s))) as [r'| |] eqn:Ha;
    try discriminate.
  injection Hrun as <- <-. split; [apply kept_refl|].
  unfold accumulator_hints in Ha.
  apply bind_Done_inv in Ha as (_ & _ & Ha).
  unfold vector_ref in Ha. case_bool_decide; [|done].
  injection Ha as <-. apply ref_ok_ephemeral.
Qed.

Lemma post_register reg :
  post E B (fun r => (is_function_closure reg = true -> ref_ok ClosureRef)
                     -> ref_ok r)
       (register cfg reg).
Proof.
  intros s r s' Hrun. unfold register in Hrun.
  unfold mbind, M_bind, environment, lift in Hrun.
  destruct (register_hints cfg (environment_ (serializer s)) reg)
    as [r'| |] eqn:Ha; try discriminate.
  injection Hrun as <- <-. split; [apply kept_refl|].
  unfold register_hints in Ha.
  destruct (is_function_closure reg).
  - injection Ha as <-. auto.
  - apply bind_Done_inv in Ha as (i & _ & Ha).
    apply bind_Done_inv in Ha as (_ & _ & Ha).
    unfold vector_ref in Ha. case_bool_decide; [|done].
    injection Ha as <-. intros _. apply ref_ok_ephemeral.
Qed.

Lemma keeps_read r : keeps (read r).
Proof.
  intros s a s' Hrun. injection Hrun as <- <-. split; [apply kept_refl|done].
Qed.

#[local] Hint Resolve keeps_lift keeps_environment keeps_flags keeps_get_broker
  keeps_jump_target_environments keeps_set_jump_target_environments
  keeps_snapshot keeps_run_child keeps_clear_ephemeral_hints keeps_read
  B_feedback B_snapshot E_Kill E_Revive E_Merge : keeps.

Ltac post_bind_with lem := eapply post_bind; [apply lem | cbv beta; intros ? ?].

Ltac keeps_step :=
  lazymatch goal with
  | |- post _ _ _ (mret _) => apply post_ret; try exact I
  | |- post _ _ _ (mbind _ accumulator) => post_bind_with post_accumulator
  | |- post _ _ _ (mbind _ (register _ _)) => post_bind_with post_register
  | |- post _ _ _ (mbind _ _) => eapply post_bind_keeps; [ | intros ?]
  | |- post _ _ _ (write _ _) => apply keeps_write; solve [eauto]
  | |- post _ _ _ (modify_environment _) =>
      apply keeps_modify_environment; try solve [eauto with keeps]
  | |- post _ _ _ (modify_broker _) =>
      apply keeps_modify_broker; try solve [eauto with keeps]
  | |- post _ _ _ (for_each _ _) => apply keeps_for_each; intros ?
  | |- post _ _ _ (if ?c then _ else _) => destruct c eqn:?
  | |- post _ _ _ (match ?x with _ => _ end) => destruct x eqn:?
  | |- post _ _ _ _ => solve [eauto with keeps]
  end.

Ltac keeps_tac := repeat keeps_step.

Lemma keeps_BailoutOnUninitialized slot :
  keeps (BailoutOnUninitialized cfg heap slot).
Proof. unfold BailoutOnUninitialized. keeps_tac. Qed.

Lemma keeps_ContributeToJumpTargetEnvironment target_offset :
  keeps (ContributeToJumpTargetEnvironment cfg target_offset).
Proof. unfold ContributeToJumpTargetEnvironment. keeps_tac. Qed.

Lemma keeps_IncorporateJumpTargetEnvironment target_offset :
  keeps (IncorporateJumpTargetEnvironment cfg target_offset).
Proof. unfold IncorporateJumpTargetEnvironment. keeps_tac. Qed.

#[local] Hint Resolve keeps_BailoutOnUninitialized
  keeps_ContributeToJumpTargetEnvironment
  keeps_IncorporateJumpTargetEnvironment : keeps.

Lemma keeps_ProcessJump current_offset jump_target :
  keeps (ProcessJump cfg current_offset jump_target).
Proof. unfold ProcessJump. keeps_tac. Qed.

Lemma keeps_load_constant constant : keeps (load_constant constant).
Proof. unfold load_constant. keeps_tac. Qed.

Lemma keeps_VisitLdar reg : keeps (VisitLdar cfg reg).
Proof. unfold VisitLdar. keeps_tac. Qed.

Lemma keeps_VisitStar reg :
  (is_function_closure reg = true -> ref_ok ClosureRef) ->
  keeps (VisitStar cfg reg).
Proof. intros Hreg. unfold VisitStar. keeps_tac. Qed.

Lemma keeps_VisitMov src dst :
  (is_function_closure dst = true -> ref_ok ClosureRef) ->
  keeps (VisitMov cfg src dst).
Proof. intros Hreg. unfold VisitMov. keeps_tac. Qed.

Lemma keeps_VisitCreateClosure shared_info cell_index :
  keeps (VisitCreateClosure heap shared_info cell_index).
Proof. unfold VisitCreateClosure. keeps_tac. Qed.

Lemma keeps_VisitGetSuperConstructor dst :
  (is_function_closure dst = true -> ref_ok ClosureRef) ->
  keeps (VisitGetSuperConstructor cfg heap dst).
Proof. intros Hreg. unfold VisitGetSuperConstructor. keeps_tac. Qed.

Lemma keeps_VisitReturn : keeps VisitReturn.
Proof.
  unfold VisitReturn. keeps_tac.
  intros e e' He. injection He as <-. apply E_return.
Qed.

Lemma keeps_VisitSwitchOnSmiNoFeedback targets :
  keeps (VisitSwitchOnSmiNoFeedback cfg targets).
Proof. unfold VisitSwitchOnSmiNoFeedback. keeps_tac. Qed.

#[local] Hint Resolve keeps_ProcessJump keeps_load_constant keeps_VisitLdar
  keeps_VisitStar keeps_VisitMov keeps_VisitCreateClosure
  keeps_VisitGetSuperConstructor keeps_VisitReturn
  keeps_VisitSwitchOnSmiNoFeedback : keeps.

Lemma keeps_GetHeapObjectFeedback vector slot :
  keeps (GetHeapObjectFeedback cfg heap vector slot).
Proof. unfold GetHeapObjectFeedback. keeps_tac. Qed.

Lemma keeps_ProcessReceiverMapForApiCall target receiver :
  keeps (ProcessReceiverMapForApiCall heap target receiver).
Proof. unfold ProcessReceiverMapForApiCall. keeps_tac. Qed.

#[local] Hint Resolve keeps_GetHeapObjectFeedback
  keeps_ProcessReceiverMapForApiCall : keeps.

Lemma keeps_ProcessApiCall target arguments :
  keeps (ProcessApiCall heap target arguments).
Proof. unfold ProcessApiCall. keeps_tac. Qed.

Lemma keeps_ProcessMapHintsForPromises receiver_hints :
  keeps (ProcessMapHintsForPromises heap receiver_hints).
Proof. unfold ProcessMapHintsForPromises. keeps_tac. Qed.

Lemma keeps_receiver_of arguments : keeps (receiver_of arguments).
Proof. unfold receiver_of. keeps_tac. Qed.

#[local] Hint Resolve keeps_ProcessApiCall keeps_ProcessMapHintsForPromises
  keeps_receiver_of : keeps.

Lemma keeps_ProcessBuiltinCall target arguments :
  keeps (ProcessBuiltinCall cfg heap target arguments).
Proof. unfold ProcessBuiltinCall. keeps_tac. Qed.

#[local] Hint Resolve keeps_ProcessBuiltinCall : keeps.

Lemma keeps_process_api_or_builtin shared_info arguments :
  keeps (process_api_or_builtin cfg heap shared_info arguments).
Proof. unfold process_api_or_builtin. keeps_tac. Qed.

Lemma keeps_Serializer_new_inlined function new_target arguments flags :
  keeps (Serializer_new_inlined cfg heap function new_target arguments flags).
Proof. unfold Serializer_new_inlined. keeps_tac. Qed.

#[local] Hint Resolve keeps_process_api_or_builtin
  keeps_Serializer_new_inlined : keeps.

Lemma keeps_RunChildSerializer function new_target arguments with_spread :
  keeps (RunChildSerializer cfg heap child_Run function new_target arguments
                            with_spread).
Proof.
  assert (forall args,
            keeps (RunChildSerializer cfg heap child_Run function new_target
                                      args false)) as Hplain.
  { intros args. rewrite RunChildSerializer_equation_2. keeps_tac. }
  destruct with_spread; [|apply Hplain].
  rewrite RunChildSerializer_equation_1. keeps_tac.
Qed.

#[local] Hint Resolve keeps_RunChildSerializer : keeps.

Lemma keeps_ProcessCallOrConstruct callee new_target arguments slot with_spread :
  keeps (ProcessCallOrConstruct cfg heap child_Run callee new_target arguments
                                slot with_spread).
Proof. unfold ProcessCallOrConstruct. keeps_tac. Qed.

Lemma keeps_export_registers first count dst :
  keeps (export_registers cfg first count dst).
Proof. unfold export_registers. keeps_tac. Qed.

Lemma keeps_read_register reg : keeps (read_register cfg reg).
Proof. unfold read_register. keeps_tac. Qed.

#[local] Hint Resolve keeps_ProcessCallOrConstruct keeps_export_registers
  keeps_read_register : keeps.

Lemma keeps_read_registers regs : keeps (read_registers cfg regs).
Proof. induction regs as [|reg regs IH]; simpl; keeps_tac. Qed.

#[local] Hint Resolve keeps_read_registers : keeps.

Lemma keeps_ProcessCallVarArgs callee first n slot mode with_spread :
  keeps (ProcessCallVarArgs cfg heap child_Run callee first n slot mode
                            with_spread).
Proof. unfold ProcessCallVarArgs. keeps_tac. Qed.

Lemma keeps_call_with callee receiver args slot :
  keeps (call_with cfg heap child_Run callee receiver args slot).
Proof. unfold call_with. keeps_tac. Qed.

Lemma keeps_construct_with callee first n slot with_spread :
  keeps (construct_with cfg heap child_Run callee first n slot with_spread).
Proof. unfold construct_with. keeps_tac. Qed.

Lemma keeps_ProcessFeedbackForGlobalAccess slot :
  keeps (ProcessFeedbackForGlobalAccess heap slot).
Proof. unfold ProcessFeedbackForGlobalAccess. keeps_tac. Qed.

#[local] Hint Resolve keeps_ProcessCallVarArgs keeps_call_with
  keeps_construct_with keeps_ProcessFeedbackForGlobalAccess : keeps.

Lemma keeps_VisitLdaGlobal slot : keeps (VisitLdaGlobal heap slot).
Proof. unfold VisitLdaGlobal. keeps_tac. Qed.

Lemma keeps_VisitStaGlobal slot : keeps (VisitStaGlobal heap slot).
Proof. unfold VisitStaGlobal. keeps_tac. Qed.

Lemma keeps_ProcessFeedbackMapsForElementAccess maps mode :
  keeps (ProcessFeedbackMapsForElementAccess heap maps mode).
Proof. unfold ProcessFeedbackMapsForElementAccess. keeps_tac. Qed.

Lemma keeps_ProcessMapForNamedPropertyAccess map name :
  keeps (ProcessMapForNamedPropertyAccess heap map name).
Proof. unfold ProcessMapForNamedPropertyAccess. keeps_tac. Qed.

#[local] Hint Resolve keeps_VisitLdaGlobal keeps_VisitStaGlobal
  keeps_ProcessFeedbackMapsForElementAccess
  keeps_ProcessMapForNamedPropertyAccess : keeps.

Lemma keeps_ProcessFeedbackMapsForNamedAccess maps mode name :
  keeps (ProcessFeedbackMapsForNamedAccess cfg heap maps mode name).
Proof. unfold ProcessFeedbackMapsForNamedAccess. keeps_tac. Qed.

#[local] Hint Resolve keeps_ProcessFeedbackMapsForNamedAccess : keeps.

Lemma keeps_ProcessFeedbackForPropertyAccess slot mode static_name :
  keeps (ProcessFeedbackForPropertyAccess cfg heap slot mode static_name).
Proof. unfold ProcessFeedbackForPropertyAccess. keeps_tac. Qed.

#[local] Hint Resolve keeps_ProcessFeedbackForPropertyAccess : keeps.

Lemma keeps_ProcessKeyedPropertyAccess receiver key slot mode :
  keeps (ProcessKeyedPropertyAccess cfg heap receiver key slot mode).
Proof. unfold ProcessKeyedPropertyAccess. keeps_tac. Qed.

Lemma keeps_ProcessNamedPropertyAccess receiver name slot mode :
  keeps (ProcessNamedPropertyAccess cfg heap receiver name slot mode).
Proof. unfold ProcessNamedPropertyAccess. keeps_tac. Qed.

#[local] Hint Resolve keeps_ProcessKeyedPropertyAccess
  keeps_ProcessNamedPropertyAccess : keeps.

Lemma keeps_VisitNamedProperty receiver name slot mode :
  keeps (VisitNamedProperty cfg heap receiver name slot mode).
Proof. unfold VisitNamedProperty. keeps_tac. Qed.

Lemma keeps_VisitLdaKeyedProperty receiver slot :
  keeps (VisitLdaKeyedProperty cfg heap receiver slot).
Proof. unfold VisitLdaKeyedProperty. keeps_tac. Qed.

Lemma keeps_VisitTestIn key slot : keeps (VisitTestIn cfg heap key slot).
Proof. unfold VisitTestIn. keeps_tac. Qed.

Lemma keeps_VisitKeyedStore receiver key slot mode :
  keeps (VisitKeyedStore cfg heap receiver key slot mode).
Proof. unfold VisitKeyedStore. keeps_tac. Qed.

Lemma keeps_VisitListed l current_offset jump_target :
  keeps (VisitListed cfg l current_offset jump_target).
Proof. unfold VisitListed. keeps_tac. Qed.

#[local] Hint Resolve keeps_VisitNamedProperty keeps_VisitLdaKeyedProperty
  keeps_VisitTestIn keeps_VisitKeyedStore keeps_VisitListed : keeps.

(** Every visitor keeps the relations, unless it writes to a closure
    register whose slot must not be written. *)
Lemma keeps_Visit current_offset bytecode :
  (writes_closure bytecode = true -> ref_ok ClosureRef) ->
  keeps (Visit cfg heap child_Run current_offset bytecode).
Proof.
  intros Hw. destruct bytecode; simpl in *; keeps_tac.
Qed.

#[local] Hint Resolve keeps_Visit : keeps.

Lemma keeps_traverse code :
  Forall (fun ob => writes_closure ob.2 = true -> ref_ok ClosureRef) code ->
  forall handlers_iterator,
    keeps (traverse cfg heap child_Run code handlers_iterator).
Proof.
  induction 1 as [|[current_offset bytecode] code Hb Hcode IH];
    intros handlers_iterator; simpl.
  - by apply post_ret.
  - simpl in Hb. keeps_tac; apply IH.
Qed.

End Invariant.

(** ** The closure hints over a walk *)

#[local] Instance same_closure_hints_preorder : PreOrder same_closure_hints.
Proof.
  split; [by intros e|]. unfold same_closure_hints.
  intros e1 e2 e3 H12 H23. by rewrite H23.
Qed.

#[local] Instance any_broker_preorder : PreOrder any_broker.
Proof. by split. Qed.

#[local] Instance any_environment_preorder : PreOrder any_environment.
Proof. by split. Qed.

Lemma M_bind_inv {A C} (m : M A) (f : A -> M C) s c s' :
  (m ≫= f) s = Done (c, s') ->
  exists a s1, m s = Done (a, s1) ∧ f a s1 = Done (c, s').
Proof.
  unfold mbind, M_bind. destruct (m s) as [[a s1]| |]; try discriminate. eauto.
Qed.

Lemma traverse_keeps_closure_hints `{RegisterLayout} cfg heap child_Run code :
  Forall (fun ob => writes_closure ob.2 = false) code ->
  forall handlers_iterator,
    post same_closure_hints any_broker (fun _ => True)
         (traverse cfg heap child_Run code handlers_iterator).
Proof.
  intros Hcode.
  apply (keeps_traverse cfg heap child_Run same_closure_hints any_broker
           (fun r => r ≠ ClosureRef)); try done.
  eapply Forall_impl; [exact Hcode|]. intros [o b] Hb Hw. simpl in *. congruence.
Qed.

(** C3, as stated, fails: the walk of a function whose code stores the
    accumulator into the closure register ends with other closure hints
    than it started with. *)
Lemma Star_closure_changes_closure_hints :
  exists s s',
    Serializer_new (sample_heap closure_writing_arrays) 10%N sample_flags
                   empty_broker
      = Done (serializer s, broker s)
    ∧ @TraverseBytecode sample_layout release_build
        (sample_heap closure_writing_arrays)
        (@RunSerializer sample_layout release_build
           (sample_heap closure_writing_arrays) 0) s
      = Done (tt, s')
    ∧ closure_hints_ (environment_ (serializer s'))
      ≠ closure_hints_ (environment_ (serializer s)).
Proof.
  eexists (MkState _ _), _. split; [vm_compute; reflexivity|].
  split; [vm_compute; reflexivity|]. vm_compute. discriminate.
Qed.

(** C3, amended: over the walk of a function whose code has no [Star],
    [Mov] or [GetSuperConstructor] with the closure register as its
    destination, the closure hints of the environment at the end are the
    ones at the start, whatever the child serializers do; this holds for
    [TraverseBytecode] and for [Run]. *)
Theorem walk_keeps_closure_hints `{RegisterLayout} (cfg : BuildConfig)
  (heap : Heap)
  (child_Run : Serializer -> JSHeapBroker -> Outcome (Hints * JSHeapBroker))
  (s : State) :
  Forall (fun ob => writes_closure ob.2 = false)
         (bytecodes (GetBytecodeArray heap
                       (shared (function_ (environment_ (serializer s)))))) ->
  (forall s', TraverseBytecode cfg heap child_Run s = Done (tt, s') ->
     closure_hints_ (environment_ (serializer s'))
     = closure_hints_ (environment_ (serializer s)))
  ∧ (forall h s', Run cfg heap child_Run s = Done (h, s') ->
       closure_hints_ (environment_ (serializer s'))
       = closure_hints_ (environment_ (serializer s))).
Proof.
  intros Hcode.
  assert (forall b s',
            TraverseBytecode cfg heap child_Run (MkState (serializer s) b)
              = Done (tt, s') ->
            closure_hints_ (environment_ (serializer s'))
            = closure_hints_ (environment_ (serializer s))) as Hwalk.
  { intros b s' Hrun. unfold TraverseBytecode in Hrun.
    apply M_bind_inv in Hrun as (e & s1 & He & Hrun).
    injection He as <- <-.
    apply M_bind_inv in Hrun as ([] & s2 & Hs & Hrun).
    injection Hs as <-.
    apply M_bind_inv in Hrun as ([] & s3 & Hs & Hrun).
    injection Hs as <-.
    apply (traverse_keeps_closure_hints cfg heap child_Run _ Hcode) in Hrun
      as [[Hclosure _] _].
    exact Hclosure. }
  split.
  - intros s'. destruct s as [ser b]. apply Hwalk.
  - intros h s' Hrun. unfold Run in Hrun.
    apply M_bind_inv in Hrun as (e & s1 & He & Hrun).
    injection He as <- <-.
    apply M_bind_inv in Hrun as (b & s1 & Hb & Hrun).
    injection Hb as <- <-.
    destruct (IsSerializedForCompilation _ _ _).
    { by injection Hrun as <- <-. }
    apply M_bind_inv in Hrun as ([] & s1 & Hs & Hrun).
    injection Hs as <-.
    apply M_bind_inv in Hrun as (f & s2 & Hf & Hrun).
    injection Hf as <- <-.
    apply M_bind_inv in Hrun as ([] & s2 & Hs & Hrun).
    assert (serializer s2 = serializer s) as Hser.
    { destruct (kCollectSourcePositions _); by injection Hs as <-. }
    apply M_bind_inv in Hrun as ([] & s3 & Hs3 & Hrun).
    injection Hs3 as <-.
    apply M_bind_inv in Hrun as ([] & s4 & Hs4 & Hrun).
    apply M_bind_inv in Hrun as (e4 & s5 & He & Hrun).
    injection He as <- <-. injection Hrun as <- <-.
    cbn [serializer] in Hs4. rewrite Hser in Hs4.
    by apply Hwalk in Hs4.
Qed.

Lemma walk_keeps_closure_hints_witness :
  exists h s',
    @Run sample_layout debug_build (sample_heap sample_arrays)
      (@RunSerializer sample_layout debug_build (sample_heap sample_arrays) 1)
      (MkState (MkSerializer
                  (Environment_new (sample_heap sample_arrays)
                     (MkSubject sample_function (Some 10%N)))
                  ∅ sample_flags)
               empty_broker)
    = Done (h, s')
    ∧ closure_hints_ (environment_ (serializer s')) = hints_of_constant 10%N.
Proof.
  destruct (@walk_keeps_closure_hints sample_layout debug_build
              (sample_heap sample_arrays)
              (@RunSerializer sample_layout debug_build
                 (sample_heap sample_arrays) 1)
              (MkState (MkSerializer
                          (Environment_new (sample_heap sample_arrays)
                             (MkSubject sample_function (Some 10%N)))
                          ∅ sample_flags)
                       empty_broker)) as [_ Hrun].
  { cbn. repeat constructor. }
  eexists _, _. split; [vm_compute; reflexivity|].
  etransitivity; [eapply Hrun; vm_compute; reflexivity|].
  vm_compute. reflexivity.
Defined.

(** ** One walk per function *)

#[local] Instance marks_grow_preorder : PreOrder marks_grow.
Proof.
  split.
  - intros b. split; [reflexivity|]. split; auto.
  - intros b1 b2 b3 (Hs12 & Hw12 & Ho12) (Hs23 & Hw23 & Ho23).
    split; [by etransitivity|]. split; auto.
Qed.

Lemma marks_grow_same_marks b b' :
  serialized_for_compilation_ b' = serialized_for_compilation_ b ->
  walks_ b' = walks_ b -> marks_grow b b'.
Proof.
  intros Hs Hw. unfold marks_grow, walked_once. rewrite Hs, Hw.
  split; [reflexivity|]. split; auto.
Qed.

(** Marking a function that is not marked and recording its walk. *)
Lemma marks_grow_first_walk b b' f :
  f ∉ serialized_for_compilation_ b ->
  serialized_for_compilation_ b' = {[f]} ∪ serialized_for_compilation_ b ->
  walks_ b' = walks_ b ++ [f] ->
  marks_grow b b'.
Proof.
  intros Hf Hs Hw. unfold marks_grow, walked_once. rewrite Hs, Hw.
  split; [set_solver|]. split; [set_solver|].
  intros [Hnodup Hmarked]. split.
  - apply NoDup_app. split; [done|]. split; [|apply NoDup_singleton].
    intros x Hx Hx'. apply list_elem_of_singleton in Hx' as ->.
    by apply Hf, Hmarked.
  - intros x Hx. apply elem_of_app in Hx as [Hx|Hx]; [set_solver|].
    apply list_elem_of_singleton in Hx as ->. set_solver.
Qed.

Lemma traverse_marks_grow `{RegisterLayout} cfg heap child_Run :
  (forall child b h b', child_Run child b = Done (h, b') -> marks_grow b b') ->
  forall code handlers_iterator,
    post any_environment marks_grow (fun _ => True)
         (traverse cfg heap child_Run code handlers_iterator).
Proof.
  intros Hchild code.
  apply (keeps_traverse cfg heap child_Run any_environment marks_grow
           (fun _ => True));
    first [ done
          | by apply Forall_forall
          | intros; by apply marks_grow_same_marks ].
Qed.

(** What one [Run] does to the marks and the walks of the broker, given
    that the runs of the child serializers only let them grow. *)
Lemma Run_marks_grow `{RegisterLayout} cfg heap child_Run s h s' :
  (forall child b h b', child_Run child b = Done (h, b') -> marks_grow b b') ->
  Run cfg heap child_Run s = Done (h, s') ->
  let f := function_ (environment_ (serializer s)) in
  marks_grow (broker s) (broker s')
  ∧ f ∈ serialized_for_compilation_ (broker s')
  ∧ (f ∉ serialized_for_compilation_ (broker s) -> f ∈ walks_ (broker s'))
  ∧ (f ∈ serialized_for_compilation_ (broker s) -> h = ∅ ∧ s' = s).
Proof.
  intros Hchild Hrun f. unfold Run in Hrun.
  apply M_bind_inv in Hrun as (e & s1 & He & Hrun).
  injection He as <- <-.
  apply M_bind_inv in Hrun as (b & s1 & Hb & Hrun).
  injection Hb as <- <-.
  unfold IsSerializedForCompilation in Hrun.
  assert (MkBlueprint (shared f) (feedback_vector f) = f) as Hf
    by (by destruct f).
  fold f in Hrun. rewrite Hf in Hrun.
  destruct (bool_decide (f ∈ serialized_for_compilation_ (broker s)))
    eqn:Hmarked.
  { apply bool_decide_eq_true in Hmarked. injection Hrun as <- <-.
    split; [reflexivity|]. by repeat split. }
  apply bool_decide_eq_false in Hmarked.
  apply M_bind_inv in Hrun as ([] & s1 & Hs & Hrun).
  injection Hs as <-.
  apply M_bind_inv in Hrun as (fl & s2 & Hfl & Hrun).
  injection Hfl as <- <-.
  apply M_bind_inv in Hrun as ([] & s2 & Hs2 & Hrun).
  apply M_bind_inv in Hrun as ([] & s3 & Hs3 & Hrun).
  injection Hs3 as <-.
  apply M_bind_inv in Hrun as ([] & s4 & Hs4 & Hrun).
  apply M_bind_inv in Hrun as (e4 & s5 & He & Hrun).
  injection He as <- <-. injection Hrun as <- <-.
  unfold TraverseBytecode in Hs4.
  apply M_bind_inv in Hs4 as (e & s5 & He & Hs4).
  injection He as <- <-.
  apply M_bind_inv in Hs4 as ([] & s5 & Hs5 & Hs4).
  injection Hs5 as <-.
  apply M_bind_inv in Hs4 as ([] & s6 & Hs6 & Hs4).
  injection Hs6 as <-.
  apply (traverse_marks_grow cfg heap child_Run Hchild) in Hs4
    as [[_ Hgrow] _].
  cbn [serializer broker environment_] in Hgrow.
  assert (serializer s2 = serializer s
          ∧ serialized_for_compilation_ (broker s2)
            = {[f]} ∪ serialized_for_compilation_ (broker s)
          ∧ walks_ (broker s2) = walks_ (broker s)) as (Hser & Hmarks & Hwalks).
  { destruct (kCollectSourcePositions _); injection Hs2 as <-; simpl;
      by rewrite Hf. }
  rewrite Hser in Hgrow. fold f in Hgrow.
  match type of Hgrow with
  | marks_grow ?b4 _ =>
      assert (marks_grow (broker s) b4) as Hfirst
  end.
  { apply (marks_grow_first_walk _ _ f); [done|by rewrite <- Hmarks|].
    simpl. by rewrite Hwalks. }
  assert (marks_grow (broker s) (broker s4)) as Hall
    by (etransitivity; [exact Hfirst|exact Hgrow]).
  split; [exact Hall|].
  destruct Hgrow as (Hs & Hw & _).
  split; [|split].
  - apply Hs. simpl. rewrite Hmarks. set_solver.
  - intros _. apply Hw. simpl. set_solver.
  - done.
Qed.

Lemma RunSerializer_marks_grow `{RegisterLayout} cfg heap fuel :
  forall s b h b',
    RunSerializer cfg heap fuel s b = Done (h, b') -> marks_grow b b'.
Proof.
  induction fuel as [|fuel IH]; intros s b h b' Hrun; simpl in Hrun; [done|].
  destruct (Run cfg heap (RunSerializer cfg heap fuel) (MkState s b))
    as [[h' s']| |] eqn:HRun; try discriminate.
  injection Hrun as <- <-.
  by apply (Run_marks_grow cfg heap _ _ _ _ IH) in HRun as [Hgrow _].
Qed.

(** C5: a run of the serializer on a pair already marked does not walk:
    it returns the empty hints and leaves the broker as it is, whatever
    the fuel.  A run on a pair not yet marked marks it and walks its
    bytecode.  Over any run, child serializers included, the marks only
    grow and no pair is walked a second time: if each walk recorded so far
    was the only one of its pair and its pair is marked, this is so
    afterwards. *)
Theorem Run_walks_each_pair_at_most_once `{RegisterLayout} (cfg : BuildConfig)
  (heap : Heap) (fuel : nat) (s : Serializer) (b : JSHeapBroker) :
  let f := function_ (environment_ s) in
  (f ∈ serialized_for_compilation_ b ->
   RunSerializer cfg heap (S fuel) s b = Done (∅, b))
  ∧ (forall h b',
       RunSerializer cfg heap fuel s b = Done (h, b') ->
       f ∈ serialized_for_compilation_ b'
       ∧ (f ∉ serialized_for_compilation_ b -> f ∈ walks_ b')
       ∧ serialized_for_compilation_ b ⊆ serialized_for_compilation_ b'
       ∧ (walked_once b -> walked_once b')).
Proof.
  intros f. split.
  - intros Hmarked. simpl. unfold Run. mcbv.
    unfold IsSerializedForCompilation. fold f.
    assert (MkBlueprint (shared f) (feedback_vector f) = f) as ->
      by (by destruct f).
    by rewrite bool_decide_eq_true_2 by done.
  - intros h b' Hrun. destruct fuel as [|fuel]; [done|]. simpl in Hrun.
    destruct (Run cfg heap (RunSerializer cfg heap fuel) (MkState s b))
      as [[h' s']| |] eqn:HRun; try discriminate.
    injection Hrun as <- <-.
    apply (Run_marks_grow cfg heap) in HRun
      as ((Hs & _ & Honce) & Hmarked & Hwalked & _);
      [|apply RunSerializer_marks_grow].
    simpl in *. auto.
Qed.

Lemma walked_once_empty_broker : walked_once empty_broker.
Proof.
  split; [apply NoDup_nil_2|]. intros f Hf. cbn in Hf.
  by apply elem_of_nil in Hf.
Qed.

Lemma Run_walks_each_pair_at_most_once_witness :
  exists h b',
    @RunSerializer sample_layout debug_build (sample_heap sample_arrays) 2
      (MkSerializer
         (Environment_new (sample_heap sample_arrays)
            (MkSubject sample_function (Some 10%N)))
         ∅ sample_flags)
      empty_broker
    = Done (h, b')
    ∧ walked_once b'
    ∧ @RunSerializer sample_layout debug_build (sample_heap sample_arrays) 2
        (MkSerializer
           (Environment_new (sample_heap sample_arrays)
              (MkSubject sample_function (Some 10%N)))
           ∅ sample_flags)
        b'
      = Done (∅, b').
Proof.
  assert (exists h b',
            @RunSerializer sample_layout debug_build
              (sample_heap sample_arrays) 2
              (MkSerializer
                 (Environment_new (sample_heap sample_arrays)
                    (MkSubject sample_function (Some 10%N)))
                 ∅ sample_flags)
              empty_broker
            = Done (h, b')) as (h & b' & Hrun).
  { eexists _, _. vm_compute. reflexivity. }
  exists h, b'. split; [exact Hrun|].
  destruct (@Run_walks_each_pair_at_most_once sample_layout debug_build
              (sample_heap sample_arrays) 2
              (MkSerializer
                 (Environment_new (sample_heap sample_arrays)
                    (MkSubject sample_function (Some 10%N)))
                 ∅ sample_flags)
              empty_broker) as [_ Hfirst].
  destruct (Hfirst h b' Hrun) as (Hmarked & _ & _ & Honce).
  split; [exact (Honce walked_once_empty_broker)|].
  destruct (@Run_walks_each_pair_at_most_once sample_layout debug_build
              (sample_heap sample_arrays) 1
              (MkSerializer
                 (Environment_new (sample_heap sample_arrays)
                    (MkSubject sample_function (Some 10%N)))
                 ∅ sample_flags)
              b') as [Hsecond _].
  exact (Hsecond Hmarked).
Defined.


(** ** More on hints *)

(** X1: [Hints::Add] is the union of hint sets: the order of two [Add]s
    into a receiver does not matter, adding is associative and
    commutative, and adding a set to itself changes nothing. *)
Theorem Add_is_a_union (a b h : Hints) :
  Add a (Add b h) = Add b (Add a h)
  ∧ Add a b = Add b a
  ∧ Add a (Add b h) = Add (Add a b) h
  ∧ Add h h = h.
Proof.
  rewrite !Add_union. simpl. repeat split; try (f_equal; set_solver).
  destruct h; simpl. f_equal; set_solver.
Qed.

(** X2: after [h.Add(other)] the receiver includes what it had and what
    [other] has, and it is the least such set: a set that includes both
    includes the result. *)
Theorem Add_least_upper_bound (other h x : Hints) :
  Includes (Add other h) h = true
  ∧ Includes (Add other h) other = true
  ∧ (Includes x h = true -> Includes x other = true ->
     Includes x (Add other h) = true).
Proof.
  rewrite Add_union, !Includes_spec. simpl.
  split; [set_solver|]. split; [set_solver|]. set_solver.
Qed.

Lemma Add_least_upper_bound_witness :
  Includes (hints_of_constant 8%N)
           (Add (hints_of_constant 8%N) (hints_of_constant 8%N)) = true.
Proof.
  apply (Add_least_upper_bound (hints_of_constant 8%N) (hints_of_constant 8%N)
           (hints_of_constant 8%N)); reflexivity.
Defined.

(** X3: [Hints::Equals] decides the equality of two hint sets, and
    [Hints::IsEmpty] holds of the cleared set only; a set is not empty
    after any of the three insertions. *)
Theorem Equals_and_IsEmpty_decide (h other : Hints) :
  (Equals h other = true <-> h = other)
  ∧ (IsEmpty h = true <-> h = Clear other)
  ∧ (forall c, IsEmpty (AddConstant c h) = false)
  ∧ (forall m, IsEmpty (AddMap m h) = false)
  ∧ (forall b, IsEmpty (AddFunctionBlueprint b h) = false).
Proof.
  split; [|split; [|split; [|split]]].
  - unfold Equals. rewrite andb_true_iff, !Includes_spec. split.
    + intros [(Hc & Hm & Hb) (Hc' & Hm' & Hb')].
      destruct h, other; simpl in *. f_equal; set_solver.
    + intros ->. done.
  - unfold IsEmpty, Clear. rewrite !andb_true_iff, !bool_decide_eq_true. split.
    + intros [[Hc Hm] Hb]. destruct h; simpl in *. by subst.
    + intros ->. done.
  - intros c. unfold IsEmpty. simpl.
    rewrite (bool_decide_eq_false_2 ({[c]} ∪ constants h = ∅)); [done|].
    set_solver.
  - intros m. unfold IsEmpty. simpl.
    rewrite (bool_decide_eq_false_2 ({[m]} ∪ maps h = ∅)); [|set_solver].
    by rewrite andb_false_r.
  - intros b. unfold IsEmpty. simpl.
    rewrite (bool_decide_eq_false_2 ({[b]} ∪ function_blueprints h = ∅));
      [|set_solver].
    by rewrite andb_false_r.
Qed.

(** ** More on the environment *)

Lemma Outcome_bind_Done_inv {A C} (m : Outcome A) (f : A -> Outcome C) (c : C) :
  m ≫= f = Done c -> exists a, m = Done a ∧ f a = Done c.
Proof. destruct m; simpl; intros; try discriminate. eauto. Qed.

Lemma Merge_alive_inv cfg e other e' :
  IsDead e = false ->
  Merge cfg e other = Done e' ->
  parameter_count_ e = parameter_count_ other
  ∧ register_count_ e = register_count_ other
  ∧ length (ephemeral_hints_ e) = length (ephemeral_hints_ other)
  ∧ e' = with_return_value_hints
           (Add (return_value_hints_ other) (return_value_hints_ e))
           (with_ephemeral_hints
              (zip_with (fun mine theirs => Add theirs mine)
                        (ephemeral_hints_ e) (ephemeral_hints_ other)) e).
Proof.
  intros Halive Hrun. unfold Merge in Hrun.
  apply Outcome_bind_Done_inv in Hrun as ([] & Hpc & Hrun).
  apply Outcome_bind_Done_inv in Hrun as ([] & Hrc & Hrun).
  apply Outcome_bind_Done_inv in Hrun as (_ & _ & Hrun).
  rewrite Halive in Hrun.
  apply Outcome_bind_Done_inv in Hrun as ([] & Hlen & Hrun).
  apply CHECK_Done_inv, bool_decide_eq_true in Hpc, Hrc, Hlen.
  by injection Hrun as <-.
Qed.

(** X4: [Merge] into an alive environment takes, slot by slot, the union
    of the hints of the two environments, and the union of their return
    value hints; the vector keeps its length, and the closure hints, the
    function and the counts stay. *)
Theorem Merge_alive_is_pointwise_union (cfg : BuildConfig)
  (e other e' : Environment) :
  IsDead e = false ->
  Merge cfg e other = Done e' ->
  length (ephemeral_hints_ e') = length (ephemeral_hints_ e)
  ∧ (forall (i : nat) (mine theirs : Hints),
       ephemeral_hints_ e !! i = Some mine ->
       ephemeral_hints_ other !! i = Some theirs ->
       ephemeral_hints_ e' !! i = Some (Add theirs mine)
       ∧ Includes (Add theirs mine) mine = true
       ∧ Includes (Add theirs mine) theirs = true)
  ∧ return_value_hints_ e'
    = Add (return_value_hints_ other) (return_value_hints_ e)
  ∧ closure_hints_ e' = closure_hints_ e
  ∧ same_function e e'.
Proof.
  intros Halive Hrun.
  apply Merge_alive_inv in Hrun as (Hpc & Hrc & Hlen & ->); [|done].
  simpl. split; [|split; [|done]].
  - rewrite length_zip_with. lia.
  - intros i mine theirs Hmine Htheirs. split.
    + rewrite lookup_zip_with, Hmine, Htheirs. done.
    + rewrite !Includes_spec, Add_union. simpl. set_solver.
Qed.

Lemma Merge_alive_is_pointwise_union_witness :
  return_value_hints_ sample_returning_environment
  = Add (return_value_hints_ sample_returning_environment)
        (return_value_hints_ sample_returning_environment).
Proof.
  apply (Merge_alive_is_pointwise_union debug_build
           sample_returning_environment sample_returning_environment
           sample_returning_environment); vm_compute; reflexivity.
Defined.

Lemma Equals_sym (a b : Hints) : Equals a b = Equals b a.
Proof. unfold Equals. apply andb_comm. Qed.

Lemma zip_with_Add_comm (v w : list Hints) :
  zip_with (fun mine theirs => Add theirs mine) v w
  = zip_with (fun mine theirs => Add theirs mine) w v.
Proof.
  revert w. induction v as [|x v IH]; intros [|y w]; simpl; try done.
  rewrite IH. f_equal. rewrite !Add_union. f_equal; set_solver.
Qed.

(** X5: on two alive environments [Merge] is symmetric in what it
    computes: when [a.Merge(b)] returns, [b.Merge(a)] returns too, with the
    same ephemeral hints and the same return value hints. *)
Theorem Merge_alive_commutes (cfg : BuildConfig) (e other e1 : Environment) :
  IsDead e = false -> IsDead other = false ->
  Merge cfg e other = Done e1 ->
  exists e2,
    Merge cfg other e = Done e2
    ∧ ephemeral_hints_ e2 = ephemeral_hints_ e1
    ∧ return_value_hints_ e2 = return_value_hints_ e1.
Proof.
  intros Halive Halive' Hrun.
  assert (SLOW_DCHECK cfg Merge_SLOW_DCHECK_closure_hints
            (Equals (closure_hints_ other) (closure_hints_ e)) = Done tt)
    as Hslow.
  { unfold Merge in Hrun.
    apply Outcome_bind_Done_inv in Hrun as (_ & _ & Hrun).
    apply Outcome_bind_Done_inv in Hrun as (_ & _ & Hrun).
    apply Outcome_bind_Done_inv in Hrun as ([] & Hslow & _).
    by rewrite Equals_sym. }
  apply Merge_alive_inv in Hrun as (Hpc & Hrc & Hlen & ->); [|done].
  eexists. split.
  - unfold Merge.
    rewrite (bool_decide_eq_true_2 _ (eq_sym Hpc)),
      (bool_decide_eq_true_2 _ (eq_sym Hrc)).
    simpl. rewrite Hslow. simpl. rewrite Halive'.
    rewrite (bool_decide_eq_true_2 _ (eq_sym Hlen)). simpl. reflexivity.
  - simpl. split; [apply zip_with_Add_comm|].
    rewrite !Add_union. f_equal; set_solver.
Qed.

Lemma Merge_alive_commutes_witness :
  exists e2,
    Merge debug_build sample_returning_environment sample_environment = Done e2
    ∧ ephemeral_hints_ e2 = ephemeral_hints_ sample_environment.
Proof.
  destruct (Merge_alive_commutes debug_build sample_environment
              sample_returning_environment
              (with_return_value_hints (hints_of_constant 9%N)
                 sample_environment))
    as (e2 & Hrun & Heph & _); [reflexivity|reflexivity|vm_compute; reflexivity|].
  exists e2. split; [exact Hrun|]. rewrite Heph. reflexivity.
Defined.

(** X6: the methods of the environment keep its layout.  [Kill] gives a
    dead environment, [Revive] one whose vector has the size the counts
    ask for, [ClearEphemeralHints] and a write through a reference leave
    the environment as dead or as alive as it was, and [Merge] with an
    environment of the same counts never returns a dead environment. *)
Theorem Environment_methods_keep_layout (cfg : BuildConfig) (e : Environment) :
  has_layout e ->
  (forall e', Kill cfg e = Done e' -> IsDead e' = true ∧ has_layout e')
  ∧ (forall e', Revive cfg e = Done e' ->
       length (ephemeral_hints_ e') = Z.to_nat (ephemeral_hints_size e')
       ∧ has_layout e')
  ∧ (IsDead (ClearEphemeralHints e) = IsDead e
     ∧ has_layout (ClearEphemeralHints e)
     ∧ Forall (fun h => h = ∅) (ephemeral_hints_ (ClearEphemeralHints e)))
  ∧ (forall r f,
       IsDead (update r f e) = IsDead e ∧ has_layout (update r f e))
  ∧ (forall other e',
       has_layout other ->
       Merge cfg e other = Done e' -> IsDead e' = false ∧ has_layout e').
Proof.
  intros Hlayout. split; [|split; [|split; [|split]]].
  - intros e' Hrun. unfold Kill in Hrun.
    apply Outcome_bind_Done_inv in Hrun as (_ & _ & Hrun).
    apply Outcome_bind_Done_inv in Hrun as (_ & _ & Hrun).
    injection Hrun as <-. split; [done|by left].
  - intros e' Hrun. unfold Revive in Hrun.
    apply Outcome_bind_Done_inv in Hrun as (_ & _ & Hrun).
    apply Outcome_bind_Done_inv in Hrun as (_ & _ & Hrun).
    injection Hrun as <-.
    assert (length (ephemeral_hints_
                      (with_ephemeral_hints
                         (resize (Z.to_nat (ephemeral_hints_size e)) ∅
                                 (ephemeral_hints_ e)) e))
            = Z.to_nat (ephemeral_hints_size e)) as Hlen
      by (simpl; apply length_resize).
    split; [exact Hlen|by right].
  - assert (IsDead (ClearEphemeralHints e) = IsDead e) as Hdead.
    { unfold IsDead. simpl. by destruct (ephemeral_hints_ e). }
    split; [exact Hdead|]. split.
    + destruct Hlayout as [Hd|Hlen]; [left; by rewrite Hdead|right].
      simpl. by rewrite length_fmap.
    + simpl. apply Forall_fmap, Forall_forall. done.
  - intros r f.
    assert (IsDead (update r f e) = IsDead e) as Hdead.
    { destruct r as [|i]; simpl; [done|]. unfold IsDead. simpl.
      pose proof (length_alter f (ephemeral_hints_ e) i) as Hlen.
      destruct (alter f i (ephemeral_hints_ e)), (ephemeral_hints_ e);
        simpl in *; congruence. }
    split; [exact Hdead|].
    destruct Hlayout as [Hd|Hlen]; [left; by rewrite Hdead|right].
    destruct r as [|i]; simpl; [done|]. by rewrite length_alter.
  - intros other e' Hother Hrun.
    destruct (IsDead e) eqn:Hdead.
    + unfold Merge in Hrun.
      apply Outcome_bind_Done_inv in Hrun as ([] & Hpc & Hrun).
      apply Outcome_bind_Done_inv in Hrun as ([] & Hrc & Hrun).
      apply Outcome_bind_Done_inv in Hrun as (_ & _ & Hrun).
      rewrite Hdead in Hrun.
      apply Outcome_bind_Done_inv in Hrun as (_ & _ & Hrun).
      apply Outcome_bind_Done_inv in Hrun as ([] & Halive & Hrun).
      injection Hrun as <-.
      apply CHECK_Done_inv, bool_decide_eq_true in Hpc, Hrc.
      apply CHECK_Done_inv, negb_true_iff in Halive.
      split; [exact Halive|]. right. simpl.
      destruct Hother as [Hd|Hlen].
      * unfold IsDead in *. simpl in *. congruence.
      * rewrite Hlen. unfold ephemeral_hints_size, current_context_index,
          accumulator_index. simpl. by rewrite Hpc, Hrc.
    + apply Merge_alive_inv in Hrun as (Hpc & Hrc & Hlen & ->); [|done].
      destruct Hlayout as [Hd|Hlayout]; [congruence|].
      assert (length (zip_with (fun mine theirs => Add theirs mine)
                        (ephemeral_hints_ e) (ephemeral_hints_ other))
              = length (ephemeral_hints_ e)) as Hzip
        by (rewrite length_zip_with; lia).
      split; [|right; simpl; by rewrite Hzip].
      unfold IsDead in *. simpl.
      destruct (zip_with _ _ _), (ephemeral_hints_ e); simpl in *; congruence.
Qed.

Lemma Environment_methods_keep_layout_witness :
  exists e',
    Merge debug_build sample_dead_environment sample_environment = Done e'
    ∧ IsDead e' = false.
Proof.
  assert (exists e',
            Merge debug_build sample_dead_environment sample_environment
            = Done e') as [e' Hrun]
    by (eexists; vm_compute; reflexivity).
  exists e'. split; [exact Hrun|].
  destruct (Environment_methods_keep_layout debug_build
              sample_dead_environment) as (_ & _ & _ & _ & HMerge).
  { left. reflexivity. }
  destruct (HMerge sample_environment e') as [Halive _].
  - right. reflexivity.
  - exact Hrun.
  - exact Halive.
Defined.

(** X7: a dead environment has no slot to hand out.  [accumulator_hints]
    and [register_hints] of any register but the closure register end the
    process on it, at their [CHECK_LT] or at the access to the empty
    vector; the closure hints stay reachable. *)
Theorem accessors_fail_on_dead_environment `{RegisterLayout}
  (cfg : BuildConfig) (e : Environment) (reg : Register) :
  IsDead e = true ->
  (accumulator_hints e = Fatal accumulator_hints_CHECK_LT
   ∨ accumulator_hints e = Fatal vector_index_out_of_bounds)
  ∧ (is_function_closure reg = false ->
     exists f, register_hints cfg e reg = Fatal f)
  ∧ (is_function_closure reg = true ->
     register_hints cfg e reg = Done ClosureRef).
Proof.
  intros Hdead.
  assert (length (ephemeral_hints_ e) = 0%nat) as Hlen.
  { unfold IsDead in Hdead. by destruct (ephemeral_hints_ e). }
  split; [|split].
  - unfold accumulator_hints, vector_ref, CHECK. rewrite Hlen.
    rewrite (bool_decide_eq_false_2 (0 <= accumulator_index e < Z.of_nat 0))
      by lia.
    destruct (bool_decide (accumulator_index e < Z.of_nat 0)); simpl; auto.
  - intros Hcl. unfold register_hints. rewrite Hcl.
    destruct (RegisterToLocalIndex cfg e reg) as [i|f|] eqn:Hi; simpl.
    + unfold vector_ref, CHECK. rewrite Hlen.
      rewrite (bool_decide_eq_false_2 (0 <= i < Z.of_nat 0)) by lia.
      destruct (bool_decide (i < Z.of_nat 0)); simpl; eauto.
    + eauto.
    + unfold RegisterToLocalIndex, DCHECK, CHECK in Hi.
      repeat match type of Hi with
             | context [if ?c then _ else _] => destruct c; simpl in Hi
             end; discriminate.
  - intros Hcl. unfold register_hints. by rewrite Hcl.
Qed.

Lemma accessors_fail_on_dead_environment_witness :
  exists f,
    @register_hints sample_layout debug_build sample_dead_environment
                    (MkRegister 0) = Fatal f.
Proof.
  apply (@accessors_fail_on_dead_environment sample_layout debug_build
           sample_dead_environment (MkRegister 0)); reflexivity.
Defined.

(** X8: where the registers of an alive environment with its layout live,
    for counts whose vector size fits an [int].  The register [r_i] of the
    function, [0 <= i < register_count], has the slot [parameter_count + i];
    the accumulator has the slot after the registers and the context
    register the one after that.  The bound of [register_hints] is the size
    of the whole vector: the indices [register_count] and
    [register_count + 1] pass it and name the slots of the accumulator and
    of the context, and from [register_count + 2] on, as long as
    [parameter_count + index] fits an [int], the [CHECK_LT] ends the
    process. *)
Theorem register_slots `{RegisterLayout} (cfg : BuildConfig)
  (e : Environment) (reg : Register) :
  0 <= parameter_count_ e -> 0 <= register_count_ e ->
  ephemeral_hints_size e < 2 ^ 31 ->
  length (ephemeral_hints_ e) = Z.to_nat (ephemeral_hints_size e) ->
  accumulator_hints e
  = Done (EphemeralRef (Z.to_nat (parameter_count_ e + register_count_ e)))
  ∧ (is_function_closure reg = false -> is_current_context reg = true ->
     register_hints cfg e reg
     = Done (EphemeralRef
               (Z.to_nat (parameter_count_ e + register_count_ e + 1))))
  ∧ (is_function_closure reg = false -> is_current_context reg = false ->
     is_parameter reg = false ->
     (0 <= index reg < register_count_ e + 2 ->
      register_hints cfg e reg
      = Done (EphemeralRef (Z.to_nat (parameter_count_ e + index reg))))
     ∧ (register_count_ e + 2 <= index reg ->
        parameter_count_ e + index reg < 2 ^ 31 ->
        register_hints cfg e reg = Fatal register_hints_CHECK_LT)).
Proof.
  intros Hpc Hrc Hfit Hlen.
  assert (Z.of_nat (length (ephemeral_hints_ e))
          = parameter_count_ e + register_count_ e + 2) as Hsize.
  { rewrite Hlen. unfold ephemeral_hints_size, current_context_index,
      accumulator_index. lia. }
  split; [|split].
  - unfold accumulator_hints, vector_ref, CHECK, accumulator_index.
    rewrite Hsize. by rewrite !bool_decide_eq_true_2 by lia.
  - intros Hcl Hctx.
    unfold register_hints, RegisterToLocalIndex, vector_ref, CHECK,
      current_context_index, accumulator_index.
    rewrite Hcl, Hctx. simpl. rewrite Hsize.
    by rewrite !bool_decide_eq_true_2 by lia.
  - intros Hcl Hctx Hpar. split.
    + intros Hidx. apply register_hints_local; try done. lia.
    + intros Hidx Hsum.
      unfold register_hints, RegisterToLocalIndex, DCHECK, CHECK.
      rewrite Hcl, Hctx, Hpar. simpl.
      destruct (debug cfg); simpl;
        by rewrite bool_decide_eq_false_2 by lia.
Qed.

Lemma register_slots_witness :
  @register_hints sample_layout debug_build sample_environment (MkRegister 1)
  = Done (EphemeralRef 2)
  ∧ @accumulator_hints sample_environment = Done (EphemeralRef 2)
  ∧ @register_hints sample_layout debug_build sample_environment (MkRegister 3)
    = Fatal register_hints_CHECK_LT.
Proof.
  destruct (@register_slots sample_layout debug_build sample_environment
              (MkRegister 1)) as (Hacc & _ & Hlocal);
    [vm_compute; discriminate|vm_compute; discriminate|reflexivity
    |reflexivity|].
  destruct (@register_slots sample_layout debug_build sample_environment
              (MkRegister 3)) as (_ & _ & Hbeyond);
    [vm_compute; discriminate|vm_compute; discriminate|reflexivity
    |reflexivity|].
  split; [|split; [exact Hacc|]].
  - apply Hlocal; try reflexivity.
    split; vm_compute; [discriminate|reflexivity].
  - apply Hbeyond; reflexivity.
Defined.

Lemma ExportRegisterHints_loop_spec `{RegisterLayout} cfg e reg_base n :
  forall (j : nat) (dst out : list Hints),
    ExportRegisterHints_loop cfg e reg_base (Z.of_nat j) n dst = Done out
    <-> exists refs,
          Forall2 (fun o r => o = Done r)
            ((fun i : nat =>
                register_hints cfg e (MkRegister (reg_base + Z.of_nat i)))
               <$> seq j n) refs
          ∧ out = dst ++ ((fun r => deref r e) <$> refs).
Proof.
  induction n as [|n IH]; intros j dst out; simpl.
  - split.
    + intros Hrun. injection Hrun as <-. exists []. split; [constructor|].
      by rewrite app_nil_r.
    + intros (refs & Hrefs & ->). apply Forall2_nil_inv_l in Hrefs as ->.
      by rewrite app_nil_r.
  - replace (Z.of_nat j + 1) with (Z.of_nat (S j)) by lia. split.
    + intros Hrun. apply Outcome_bind_Done_inv in Hrun as (r & Hr & Hrun).
      apply IH in Hrun as (refs & Hrefs & ->).
      exists (r :: refs). split; [by constructor|].
      simpl. by rewrite <- app_assoc.
    + intros (refs & Hrefs & ->).
      apply Forall2_cons_inv_l in Hrefs as (r & refs' & Hr & Hrefs & ->).
      rewrite Hr. simpl. apply IH. exists refs'. split; [done|].
      simpl. by rewrite <- app_assoc.
Qed.

(** X9: what [ExportRegisterHints(first, count, dst)] returns, for a count
    that fits an [int].  It returns exactly when every register of the
    range [first, first + count) has a slot, and then [dst] is followed by
    [count] empty hints and by the hints of the registers of the range, in
    order: the old contents stay in front, the hints of the range are the
    last [count] elements. *)
Theorem ExportRegisterHints_spec `{RegisterLayout} (cfg : BuildConfig)
  (e : Environment) (first : Register) (count : Z) (dst out : list Hints) :
  0 <= count < 2 ^ 31 ->
  ExportRegisterHints cfg e first count dst = Done out
  <-> exists refs,
        Forall2 (fun o r => o = Done r)
                (register_range_hints cfg e first (Z.to_nat count)) refs
        ∧ out = dst ++ replicate (Z.to_nat count) ∅
                    ++ ((fun r => deref r e) <$> refs).
Proof.
  intros Hcount. unfold ExportRegisterHints, register_range_hints.
  assert (static_cast_int count = count) as ->.
  { unfold static_cast_int. rewrite Z.mod_small; lia. }
  rewrite resize_ge by lia.
  replace (length dst + Z.to_nat count - length dst)%nat
    with (Z.to_nat count) by lia.
  rewrite (ExportRegisterHints_loop_spec cfg e (index first) (Z.to_nat count) 0).
  split; intros (refs & Hrefs & ->); exists refs;
    (split; [done|by rewrite <- app_assoc]).
Qed.

Lemma ExportRegisterHints_spec_witness :
  @ExportRegisterHints sample_layout debug_build sample_environment
    (MkRegister 0) 2 [hints_of_constant 1%N]
  = Done [hints_of_constant 1%N; ∅; ∅; hints_of_constant 8%N; ∅].
Proof.
  apply (@ExportRegisterHints_spec sample_layout debug_build
           sample_environment (MkRegister 0) 2 [hints_of_constant 1%N]);
    [split; vm_compute; [discriminate|reflexivity]|].
  exists [EphemeralRef 1; EphemeralRef 2].
  split; [repeat constructor|reflexivity].
Defined.

(** ** More on the walk *)

Lemma skip_handlers_before_spec (offset : Z) (it : list Z) :
  StronglySorted Z.le it ->
  StronglySorted Z.le (skip_handlers_before offset it)
  ∧ (forall x, x ∈ skip_handlers_before offset it <-> x ∈ it ∧ offset <= x).
Proof.
  induction 1 as [|h it Hit IH Hall]; simpl.
  - split; [constructor|]. intros x. rewrite elem_of_nil. tauto.
  - case_bool_decide as Hlt.
    + destruct IH as [Hsorted Hin]. split; [done|].
      intros x. rewrite Hin, elem_of_cons. split; [tauto|].
      intros [[->|Hx] Hle]; [lia|done].
    + split; [by constructor|].
      intros x. rewrite elem_of_cons. split; [|tauto].
      intros [->|Hx]; [split; [by left|lia]|].
      split; [by right|]. rewrite Forall_forall in Hall.
      specialize (Hall x Hx). lia.
Qed.

Lemma CurrentBytecodeIsExceptionHandlerStart_sorted (offset : Z) (it : list Z) :
  StronglySorted Z.le it ->
  (CurrentBytecodeIsExceptionHandlerStart offset it).1
  = bool_decide (offset ∈ it).
Proof.
  intros Hsorted. unfold CurrentBytecodeIsExceptionHandlerStart. simpl.
  destruct (skip_handlers_before_spec offset it Hsorted) as [Hs Hin].
  destruct (skip_handlers_before offset it) as [|h t] eqn:Hskip.
  - symmetry. apply bool_decide_eq_false_2. intros Hoff.
    assert (offset ∈ @nil Z) as Hnil by (apply Hin; split; [done|lia]).
    by apply elem_of_nil in Hnil.
  - apply StronglySorted_inv in Hs as [_ Hall].
    rewrite Forall_forall in Hall.
    case_bool_decide as Hh.
    + subst h. symmetry. apply bool_decide_eq_true_2.
      apply (Hin offset). by left.
    + symmetry. apply bool_decide_eq_false_2. intros Hoff.
      assert (offset ∈ h :: t) as Hht by (apply Hin; split; [done|lia]).
      assert (h ∈ h :: t) as Hhh by (by left).
      apply Hin in Hhh as [_ Hle].
      apply elem_of_cons in Hht as [->|Ht]; [done|].
      specialize (Hall offset Ht). lia.
Qed.

Lemma handler_starts_sorted (offsets : list Z) :
  StronglySorted Z.le offsets ->
  forall it,
    StronglySorted Z.le it ->
    handler_starts offsets it = (fun o => bool_decide (o ∈ it)) <$> offsets.
Proof.
  induction 1 as [|o offsets Hoffsets IH Hall]; intros it Hit; simpl; [done|].
  pose proof (CurrentBytecodeIsExceptionHandlerStart_sorted o it Hit) as Hfirst.
  destruct (skip_handlers_before_spec o it Hit) as [Hs Hin].
  unfold CurrentBytecodeIsExceptionHandlerStart in Hfirst. simpl in Hfirst.
  f_equal; [exact Hfirst|].
  rewrite (IH _ Hs). apply Forall_fmap_ext_1.
  eapply Forall_impl; [exact Hall|]. intros o' Hle. simpl.
  apply bool_decide_ext. rewrite Hin. tauto.
Qed.

(** X10: the handler matcher tells the starts of the exception handlers.
    Asked for offsets in non-decreasing order, as the walk does, it answers
    for each of them whether the handler table has a range with this
    handler offset, however many offsets were left out in between. *)
Theorem ExceptionHandlerMatcher_finds_the_handlers (array : BytecodeArray)
  (offsets : list Z) :
  StronglySorted Z.le offsets ->
  handler_starts offsets (ExceptionHandlerMatcher_new array)
  = (fun o => bool_decide (o ∈ range_handlers array)) <$> offsets.
Proof.
  intros Hoffsets. unfold ExceptionHandlerMatcher_new.
  rewrite handler_starts_sorted;
    [|done|apply StronglySorted_merge_sort; apply _].
  apply Forall_fmap_ext_1, Forall_forall. intros o _.
  apply bool_decide_ext.
  rewrite merge_sort_Permutation. apply elem_of_remove_dups.
Qed.

Lemma ExceptionHandlerMatcher_finds_the_handlers_witness :
  handler_starts [2; 7; 7; 9]
    (ExceptionHandlerMatcher_new
       (MkBytecodeArray 1 0 invalid_register [] [9; 7; 7; 4]))
  = [false; true; true; true].
Proof.
  rewrite (ExceptionHandlerMatcher_finds_the_handlers
             (MkBytecodeArray 1 0 invalid_register [] [9; 7; 7; 4])
             [2; 7; 7; 9]).
  - vm_compute. reflexivity.
  - repeat (constructor; [|repeat constructor; lia]). constructor.
Defined.

(** What [GetRelevantReceiverMaps] does with its checks left out. *)
Lemma GetRelevantReceiverMaps_Done cfg heap maps result :
  GetRelevantReceiverMaps cfg heap maps = Done result ->
  result = omap (relevant_map heap) maps.
Proof.
  revert result. induction maps as [|map maps IH]; intros result Hrun;
    simpl in *.
  - by injection Hrun as <-.
  - unfold relevant_map at 1.
    destruct (TryUpdate heap map) as [updated|]; [|by apply IH].
    destruct (is_abandoned_prototype_map heap updated); simpl in *;
      [by apply IH|].
    apply Outcome_bind_Done_inv in Hrun as ([] & _ & Hrun).
    apply Outcome_bind_Done_inv in Hrun as (rest & Hrest & Hrun).
    injection Hrun as <-. f_equal. by apply IH.
Qed.

(** X11: [GetRelevantReceiverMaps] maps every map to its updated version
    and drops, in place, the maps that have none and the ones whose update
    is an abandoned prototype map.  It can only stop at its [DCHECK]: in a
    build without [DCHECK]s, and whenever no update is deprecated, it
    returns. *)
Theorem GetRelevantReceiverMaps_spec (cfg : BuildConfig) (heap : Heap)
  (maps : list Handle) :
  (forall result,
     GetRelevantReceiverMaps cfg heap maps = Done result ->
     result = omap (relevant_map heap) maps)
  ∧ (debug cfg = false
     ∨ Forall (fun m => is_deprecated heap m = false)
              (omap (relevant_map heap) maps) ->
     GetRelevantReceiverMaps cfg heap maps
     = Done (omap (relevant_map heap) maps))
  ∧ (GetRelevantReceiverMaps cfg heap maps
     = Done (omap (relevant_map heap) maps)
     ∨ GetRelevantReceiverMaps cfg heap maps
       = Fatal GetRelevantReceiverMaps_DCHECK_not_deprecated).
Proof.
  split; [intros result; apply GetRelevantReceiverMaps_Done|].
  split.
  - induction maps as [|map maps IH]; intros Hok; simpl; [done|].
    unfold relevant_map at 1 3.
    destruct (TryUpdate heap map) as [updated|] eqn:Hup.
    2: { apply IH. destruct Hok as [?|Hok]; [by left|right].
         simpl in Hok. unfold relevant_map at 1 in Hok. by rewrite Hup in Hok. }
    destruct (is_abandoned_prototype_map heap updated) eqn:Hab; simpl.
    { apply IH. destruct Hok as [?|Hok]; [by left|right].
      simpl in Hok. unfold relevant_map at 1 in Hok.
      by rewrite Hup, Hab in Hok. }
    assert (DCHECK cfg GetRelevantReceiverMaps_DCHECK_not_deprecated
              (negb (is_deprecated heap updated)) = Done tt) as ->.
    { unfold DCHECK, CHECK. destruct (debug cfg) eqn:Hd; [|done].
      destruct Hok as [?|Hok]; [done|].
      simpl in Hok. unfold relevant_map at 1 in Hok.
      rewrite Hup, Hab in Hok. apply Forall_cons in Hok as [-> _]. done. }
    simpl. rewrite IH; [done|].
    destruct Hok as [?|Hok]; [by left|right].
    simpl in Hok. unfold relevant_map at 1 in Hok.
    rewrite Hup, Hab in Hok. by apply Forall_cons in Hok as [_ ?].
  - induction maps as [|map maps IH]; simpl; [by left|].
    unfold relevant_map at 1 3.
    destruct (TryUpdate heap map) as [updated|]; [|exact IH].
    destruct (is_abandoned_prototype_map heap updated); simpl; [exact IH|].
    unfold DCHECK, CHECK.
    destruct (debug cfg); simpl.
    + destruct (is_deprecated heap updated); simpl; [by right|].
      destruct IH as [->| ->]; simpl; auto.
    + destruct IH as [->| ->]; simpl; auto.
Qed.

Lemma GetRelevantReceiverMaps_spec_witness :
  GetRelevantReceiverMaps release_build (sample_heap sample_arrays)
                          [50%N; 51%N]
  = Done [50%N; 51%N].
Proof.
  apply (GetRelevantReceiverMaps_spec release_build
           (sample_heap sample_arrays) [50%N; 51%N]).
  left. reflexivity.
Defined.

Lemma Merge_with_copy cfg e : IsDead e = false -> Merge cfg e e = Done e.
Proof.
  intros Halive. unfold Merge.
  rewrite !bool_decide_eq_true_2 by reflexivity. simpl.
  unfold SLOW_DCHECK. rewrite Equals_refl, Halive.
  destruct (slow_dchecks cfg); simpl;
    rewrite zip_with_Add_diag, Add_idemp; by destruct e.
Qed.

(** X12: a jump to the instruction that comes next is a round trip.  When
    an alive environment contributes to a jump target that has no entry
    yet, and the walk reaches this target with the same environment, the
    state is what it was: the environment is merged with its own snapshot
    and the entry is gone. *)
Theorem Contribute_then_Incorporate (cfg : BuildConfig) (target_offset : Z)
  (s : State) :
  IsDead (environment_ (serializer s)) = false ->
  jump_target_environments_ (serializer s) !! target_offset = None ->
  (ContributeToJumpTargetEnvironment cfg target_offset
   ≫= fun _ => IncorporateJumpTargetEnvironment cfg target_offset) s
  = Done (tt, s).
Proof.
  destruct s as [[e targets f] b]. simpl. intros Halive Hnone.
  unfold ContributeToJumpTargetEnvironment, IncorporateJumpTargetEnvironment.
  mcbv. rewrite Hnone. mcbv. rewrite lookup_insert_eq. mcbv.
  rewrite (Merge_with_copy cfg e Halive). mcbv.
  by rewrite delete_insert_eq, delete_id.
Qed.

Lemma Contribute_then_Incorporate_witness :
  (ContributeToJumpTargetEnvironment debug_build 12
   ≫= fun _ => IncorporateJumpTargetEnvironment debug_build 12) sample_state
  = Done (tt, sample_state).
Proof.
  apply (Contribute_then_Incorporate debug_build 12 sample_state); reflexivity.
Defined.

Lemma skip_handlers_before_subseteq offset it x :
  x ∈ skip_handlers_before offset it -> x ∈ it.
Proof.
  induction it as [|h it IH]; simpl; [done|].
  case_bool_decide; [|done]. intros Hx. right. by apply IH.
Qed.

(** X13: dead code is skipped.  With a dead environment, the walk over
    code that has no pending jump target, no [ResumeGenerator] and no
    start of an exception handler changes nothing: no visitor runs. *)
Theorem traverse_skips_dead_code `{RegisterLayout} (cfg : BuildConfig)
  (heap : Heap)
  (child_Run : Serializer -> JSHeapBroker -> Outcome (Hints * JSHeapBroker))
  (code : list (Z * Bytecode)) (handlers_iterator : list Z) (s : State) :
  IsDead (environment_ (serializer s)) = true ->
  Forall (fun ob =>
            jump_target_environments_ (serializer s) !! ob.1 = None
            ∧ is_kResumeGenerator ob.2 = false
            ∧ ob.1 ∉ handlers_iterator) code ->
  traverse cfg heap child_Run code handlers_iterator s = Done (tt, s).
Proof.
  destruct s as [[e targets f] b]. simpl. intros Hdead Hcode.
  revert handlers_iterator Hcode.
  induction code as [|[offset bytecode] code IH]; intros it Hcode; [done|].
  apply Forall_cons in Hcode as [(Hnone & Hresume & Hstart) Hcode].
  simpl in *. unfold IncorporateJumpTargetEnvironment. mcbv.
  rewrite Hnone. mcbv. rewrite Hdead, Hresume.
  destruct (skip_handlers_before offset it) as [|h rest] eqn:Hskip.
  - apply IH. eapply Forall_impl; [exact Hcode|].
    intros ob (? & ? & ?). repeat split; try done. apply not_elem_of_nil.
  - assert (h ≠ offset) as Hne.
    { intros ->. apply Hstart.
      apply (skip_handlers_before_subseteq offset). rewrite Hskip. by left. }
    rewrite bool_decide_eq_false_2 by done.
    apply IH. eapply Forall_impl; [exact Hcode|].
    intros ob (? & ? & Hob). repeat split; try done.
    intros Hin. apply Hob.
    apply (skip_handlers_before_subseteq offset). by rewrite Hskip.
Qed.

Lemma traverse_skips_dead_code_witness :
  @traverse sample_layout debug_build (sample_heap sample_arrays)
    (@RunSerializer sample_layout debug_build (sample_heap sample_arrays) 0)
    [(4, LdaSmi 42); (6, Return)] [2]
    (MkState (MkSerializer sample_dead_environment ∅ sample_flags)
             empty_broker)
  = Done (tt, MkState (MkSerializer sample_dead_environment ∅ sample_flags)
                      empty_broker).
Proof.
  apply (@traverse_skips_dead_code sample_layout debug_build
           (sample_heap sample_arrays)); [reflexivity|].
  repeat constructor; simpl; set_solver.
Defined.

(** ** The moves between the registers and the accumulator *)

Lemma accumulator_hints_update r f e :
  accumulator_hints (update r f e) = accumulator_hints e.
Proof.
  destruct r as [|i]; [done|].
  unfold accumulator_hints, vector_ref. simpl. by rewrite length_alter.
Qed.

Lemma register_hints_update `{RegisterLayout} cfg r f e reg :
  register_hints cfg (update r f e) reg = register_hints cfg e reg.
Proof.
  destruct r as [|i]; [done|].
  unfold register_hints, RegisterToLocalIndex, vector_ref. simpl.
  by rewrite length_alter.
Qed.

Lemma vector_ref_in_bounds e idx i :
  vector_ref e idx = Done (EphemeralRef i) ->
  (i < length (ephemeral_hints_ e))%nat.
Proof.
  unfold vector_ref. case_bool_decide; [|done]. intros [= <-]. lia.
Qed.

Lemma accumulator_hints_in_bounds e i :
  accumulator_hints e = Done (EphemeralRef i) ->
  (i < length (ephemeral_hints_ e))%nat.
Proof.
  unfold accumulator_hints. intros Hrun.
  apply Outcome_bind_Done_inv in Hrun as ([] & _ & Hrun).
  by apply vector_ref_in_bounds in Hrun.
Qed.

Lemma register_hints_in_bounds `{RegisterLayout} cfg e reg i :
  register_hints cfg e reg = Done (EphemeralRef i) ->
  (i < length (ephemeral_hints_ e))%nat.
Proof.
  unfold register_hints. destruct (is_function_closure reg); [done|].
  intros Hrun.
  apply Outcome_bind_Done_inv in Hrun as (idx & _ & Hrun).
  apply Outcome_bind_Done_inv in Hrun as ([] & _ & Hrun).
  by apply vector_ref_in_bounds in Hrun.
Qed.

Lemma Add_empty_r (h : Hints) : Add h ∅ = h.
Proof. rewrite Add_union. destruct h; simpl. f_equal; set_solver. Qed.

(** Clearing a slot and adding [h] to it stores [h] there. *)
Lemma alter_Clear_Add (h : Hints) (i : nat) (v : list Hints) :
  alter (Add h) i (alter Clear i v) = <[i := h]> v.
Proof.
  apply list_eq. intros j. destruct (decide (j = i)) as [->|Hne].
  - destruct (v !! i) as [x|] eqn:Hx.
    + pose proof (lookup_lt_Some _ _ _ Hx).
      rewrite list_lookup_insert_eq by done.
      rewrite list_lookup_alter, list_lookup_alter, Hx.
      rewrite !decide_True by done. simpl.
      unfold Clear. by rewrite Add_empty_r.
    + pose proof (lookup_ge_None_1 _ _ Hx).
      rewrite list_lookup_alter, list_lookup_alter, Hx.
      rewrite !decide_True by done. simpl.
      by rewrite list_insert_ge.
  - rewrite list_lookup_insert_ne by done.
    by rewrite !list_lookup_alter_ne by done.
Qed.

(** X14: [Star r] followed by [Ldar r], for a register [r] that has a slot
    of its own.  The register takes over the hints of the accumulator, the
    accumulator has the hints it had, and no other slot changes. *)
Theorem Star_then_Ldar `{RegisterLayout} (cfg : BuildConfig) (reg : Register)
  (s : State) (i a : nat) :
  let e := environment_ (serializer s) in
  register_hints cfg e reg = Done (EphemeralRef i) ->
  accumulator_hints e = Done (EphemeralRef a) ->
  i ≠ a ->
  exists s',
    (VisitStar cfg reg ≫= fun _ => VisitLdar cfg reg) s = Done (tt, s')
    ∧ environment_ (serializer s')
      = with_ephemeral_hints
          (<[i := deref (EphemeralRef a) e]> (ephemeral_hints_ e)) e
    ∧ deref (EphemeralRef i) (environment_ (serializer s'))
      = deref (EphemeralRef a) e
    ∧ deref (EphemeralRef a) (environment_ (serializer s'))
      = deref (EphemeralRef a) e
    ∧ broker s' = broker s.
Proof.
  destruct s as [[e targets f] b]. simpl. intros Hreg Hacc Hne.
  pose proof (register_hints_in_bounds _ _ _ _ Hreg) as Hi.
  pose proof (accumulator_hints_in_bounds _ _ Hacc) as Ha.
  destruct (lookup_lt_is_Some_2 _ _ Ha) as [h Hh].
  unfold VisitStar, VisitLdar, accumulator, register, read, write. mcbv.
  do 6 (rewrite ?register_hints_update, ?accumulator_hints_update, ?Hreg,
          ?Hacc; mcbv).
  eexists. split; [reflexivity|]. simpl.
  set (v := ephemeral_hints_ e) in *.
  assert (a ≠ i) as Hne' by done.
  rewrite ?(list_lookup_alter_ne Clear v i a Hne), ?Hh. simpl.
  rewrite (alter_Clear_Add h i v).
  rewrite ?(list_lookup_alter_ne Clear (<[i:=h]> v) a i Hne').
  rewrite (list_lookup_insert_eq v i h Hi). simpl.
  rewrite ?(alter_Clear_Add h a (<[i:=h]> v)).
  assert (<[a := h]> (<[i := h]> v) = <[i := h]> v) as ->.
  { apply list_insert_id. by rewrite list_lookup_insert_ne. }
  rewrite (list_lookup_insert_eq v i h Hi).
  rewrite list_lookup_insert_ne, Hh by done.
  subst v. by destruct e.
Qed.

Lemma Star_then_Ldar_witness :
  exists s',
    (@VisitStar sample_layout debug_build (MkRegister 0)
     ≫= fun _ => @VisitLdar sample_layout debug_build (MkRegister 0))
      sample_state = Done (tt, s')
    ∧ deref (EphemeralRef 1) (environment_ (serializer s')) = ∅.
Proof.
  destruct (@Star_then_Ldar sample_layout debug_build (MkRegister 0)
              sample_state 1 2) as (s' & Hrun & _ & Hreg & _);
    [reflexivity|reflexivity|discriminate|].
  exists s'. split; [exact Hrun|]. rewrite Hreg. reflexivity.
Defined.

(** X15: [Mov src dst] into a register with a slot of its own.  The slot
    of [dst] gets the hints of [src], read after the slot was cleared: when
    [src] names another slot or the closure, these are the hints of [src];
    when [src] and [dst] name the same slot, the slot ends up empty.  No
    other slot changes. *)
Theorem Mov_copies_or_clears `{RegisterLayout} (cfg : BuildConfig)
  (src dst : Register) (s : State) (from : HintsRef) (d : nat) :
  let e := environment_ (serializer s) in
  register_hints cfg e src = Done from ->
  register_hints cfg e dst = Done (EphemeralRef d) ->
  exists s',
    VisitMov cfg src dst s = Done (tt, s')
    ∧ broker s' = broker s
    ∧ (from ≠ EphemeralRef d ->
       environment_ (serializer s')
       = with_ephemeral_hints (<[d := deref from e]> (ephemeral_hints_ e)) e)
    ∧ (from = EphemeralRef d ->
       environment_ (serializer s')
       = with_ephemeral_hints (<[d := ∅]> (ephemeral_hints_ e)) e).
Proof.
  destruct s as [[e targets f] b]. simpl. intros Hsrc Hdst.
  pose proof (register_hints_in_bounds _ _ _ _ Hdst) as Hd.
  unfold VisitMov, register, read, write. mcbv.
  do 4 (rewrite ?register_hints_update, ?Hdst, ?Hsrc; mcbv).
  eexists. split; [reflexivity|]. split; [reflexivity|]. simpl.
  rewrite alter_Clear_Add. split.
  - intros Hne. destruct from as [|i]; simpl; [by destruct e|].
    assert (i ≠ d) by congruence.
    rewrite list_lookup_alter_ne by done. by destruct e.
  - intros ->. simpl. rewrite list_lookup_alter, decide_True by done.
    destruct (lookup_lt_is_Some_2 _ _ Hd) as [h ->]. simpl.
    by destruct e.
Qed.

Lemma Mov_copies_or_clears_witness :
  exists s',
    @VisitMov sample_layout debug_build (MkRegister 0) (MkRegister 0)
      sample_state = Done (tt, s')
    ∧ ephemeral_hints_ (environment_ (serializer s')) = [∅; ∅; ∅; ∅].
Proof.
  destruct (@Mov_copies_or_clears sample_layout debug_build (MkRegister 0)
              (MkRegister 0) sample_state (EphemeralRef 1) 1)
    as (s' & Hrun & _ & _ & Hsame); [reflexivity|reflexivity|].
  exists s'. split; [exact Hrun|]. rewrite Hsame; reflexivity.
Defined.

(** ** Feedback is processed once *)

Lemma HasFeedback_SetFeedback source feedback b :
  HasFeedback (SetFeedback source feedback b) source = true.
Proof.
  unfold HasFeedback, SetFeedback. simpl. apply bool_decide_eq_true_2.
  rewrite lookup_insert_eq. eauto.
Qed.

Lemma GetFeedback_SetFeedback source feedback b :
  GetFeedback (SetFeedback source feedback b) source = feedback.
Proof. unfold GetFeedback, SetFeedback. simpl. by rewrite lookup_insert_eq. Qed.

Lemma M_if {A} (c : bool) (m1 m2 : M A) (s : State) :
  (if c then m1 else m2) s = if c then m1 s else m2 s.
Proof. by destruct c. Qed.

Ltac mrun := do 4 (mcbv; rewrite ?M_if).

(** X16: [ProcessFeedbackForGlobalAccess] memoizes.  It never touches the
    serializer and never replaces an entry of the cache; for a valid slot
    of a vector that is there, the cache has the returned feedback
    afterwards; and asking again returns the same feedback and changes
    nothing. *)
Theorem ProcessFeedbackForGlobalAccess_memoizes (heap : Heap)
  (slot : FeedbackSlot) (s s1 : State) (feedback : option ProcessedFeedback) :
  let source : FeedbackSource :=
    (feedback_vector (function_ (environment_ (serializer s))), slot) in
  ProcessFeedbackForGlobalAccess heap slot s = Done (feedback, s1) ->
  serializer s1 = serializer s
  ∧ (HasFeedback (broker s) source = true -> s1 = s)
  ∧ (IsInvalid slot = false -> is_null source.1 = false ->
     HasFeedback (broker s1) source = true
     ∧ GetFeedback (broker s1) source = feedback)
  ∧ ProcessFeedbackForGlobalAccess heap slot s1 = Done (feedback, s1).
Proof.
  destruct s as [[e targets f] b]. simpl.
  unfold ProcessFeedbackForGlobalAccess.
  destruct (IsInvalid slot) eqn:Hinvalid.
  { intros [= <- <-]. by repeat split. }
  mrun.
  destruct (is_null (feedback_vector (function_ e))) eqn:Hnull.
  { intros [= <- <-]. repeat split; try done. mrun. by rewrite Hnull. }
  destruct (HasFeedback b (feedback_vector (function_ e), slot)) eqn:Hhas.
  - intros [= <- <-]. repeat split; try done. mrun. by rewrite Hnull, Hhas.
  - intros [= <- <-]. repeat split; try done.
    + apply HasFeedback_SetFeedback.
    + apply GetFeedback_SetFeedback.
    + mrun. rewrite Hnull.
      by rewrite HasFeedback_SetFeedback, GetFeedback_SetFeedback.
Qed.

Lemma ProcessFeedbackForGlobalAccess_memoizes_witness :
  exists s1,
    ProcessFeedbackForGlobalAccess (sample_heap sample_arrays) 4 sample_state
    = Done (None, s1)
    ∧ ProcessFeedbackForGlobalAccess (sample_heap sample_arrays) 4 s1
      = Done (None, s1).
Proof.
  assert (exists s1,
            ProcessFeedbackForGlobalAccess (sample_heap sample_arrays) 4
              sample_state = Done (None, s1)) as [s1 Hrun]
    by (eexists; vm_compute; reflexivity).
  exists s1. split; [exact Hrun|].
  by apply (ProcessFeedbackForGlobalAccess_memoizes
              (sample_heap sample_arrays) 4 sample_state s1 None).
Defined.

Lemma ProcessFeedbackForPropertyAccess_cached cfg heap slot mode name s :
  HasFeedback (broker s)
    (feedback_vector (function_ (environment_ (serializer s))), slot) = true ->
  ProcessFeedbackForPropertyAccess cfg heap slot mode name s = Done (tt, s).
Proof.
  intros Hhas. unfold ProcessFeedbackForPropertyAccess.
  destruct (IsInvalid slot); [done|]. mrun.
  destruct (is_null _); [done|]. by rewrite Hhas.
Qed.

Lemma modify_broker_SetFeedback_inv source feedback s s1 :
  modify_broker (SetFeedback source feedback) s = Done (tt, s1) ->
  serializer s1 = serializer s
  ∧ HasFeedback (broker s1) source = true.
Proof.
  intros [= <-]. split; [done|]. apply HasFeedback_SetFeedback.
Qed.

(** X17: [ProcessFeedbackForPropertyAccess] processes a source once.  It
    leaves the environment alone and does nothing when the source has an
    entry in the cache; after a run on a valid slot of a vector that is
    there the source has an entry, so that every later access through the
    slot, in whatever access mode and with whatever name, does nothing. *)
Theorem ProcessFeedbackForPropertyAccess_once (cfg : BuildConfig)
  (heap : Heap) (slot : FeedbackSlot) (mode : AccessMode)
  (static_name : option Handle) (s s1 : State) :
  let source : FeedbackSource :=
    (feedback_vector (function_ (environment_ (serializer s))), slot) in
  ProcessFeedbackForPropertyAccess cfg heap slot mode static_name s
  = Done (tt, s1) ->
  environment_ (serializer s1) = environment_ (serializer s)
  ∧ (HasFeedback (broker s) source = true -> s1 = s)
  ∧ (IsInvalid slot = false -> is_null source.1 = false ->
     HasFeedback (broker s1) source = true)
  ∧ (forall mode' name',
       ProcessFeedbackForPropertyAccess cfg heap slot mode' name' s1
       = Done (tt, s1)).
Proof.
  intros source Hrun.
  assert (environment_ (serializer s1) = environment_ (serializer s)) as Henv.
  { by apply (keeps_ProcessFeedbackForPropertyAccess cfg heap
                (@eq Environment) any_broker) in Hrun as [[He _] _]. }
  assert (HasFeedback (broker s) source = true -> s1 = s) as Hcached.
  { intros Hhas.
    rewrite ProcessFeedbackForPropertyAccess_cached in Hrun by done.
    by injection Hrun. }
  assert (IsInvalid slot = false -> is_null source.1 = false ->
          HasFeedback (broker s1) source = true) as Hafter.
  { intros Hinvalid Hnull. unfold ProcessFeedbackForPropertyAccess in Hrun.
    rewrite Hinvalid in Hrun.
    apply M_bind_inv in Hrun as (e & s' & [= <- <-] & Hrun).
    fold source in Hrun. simpl in Hnull. rewrite Hnull in Hrun.
    apply M_bind_inv in Hrun as (b & s' & [= <- <-] & Hrun).
    destruct (HasFeedback (broker s) source) eqn:Hhas.
    { by injection Hrun as <-. }
    destruct (bool_decide (nexus_ic_state heap source = UNINITIALIZED)).
    { by apply modify_broker_SetFeedback_inv in Hrun as [_ ?]. }
    destruct (nexus_ExtractMaps heap source) as [|m ms].
    { by apply modify_broker_SetFeedback_inv in Hrun as [_ ?]. }
    apply M_bind_inv in Hrun as (maps & s' & _ & Hrun).
    destruct maps as [|m' ms'].
    { by apply modify_broker_SetFeedback_inv in Hrun as [_ ?]. }
    apply M_bind_inv in Hrun as (processed & s'' & _ & Hrun).
    by apply modify_broker_SetFeedback_inv in Hrun as [_ ?]. }
  split; [exact Henv|]. split; [exact Hcached|]. split; [exact Hafter|].
  intros mode' name'. unfold ProcessFeedbackForPropertyAccess.
  destruct (IsInvalid slot) eqn:Hinvalid; [done|]. mrun.
  rewrite Henv. fold source.
  destruct (is_null (feedback_vector (function_ (environment_ (serializer s)))))
    eqn:Hnull; [done|].
  by rewrite Hafter.
Qed.

Lemma ProcessFeedbackForPropertyAccess_once_witness :
  exists s1,
    ProcessFeedbackForPropertyAccess debug_build (sample_heap sample_arrays)
      4 kLoad (Some 6%N) sample_state = Done (tt, s1)
    ∧ ProcessFeedbackForPropertyAccess debug_build (sample_heap sample_arrays)
        4 kStore None s1 = Done (tt, s1).
Proof.
  assert (exists s1,
            ProcessFeedbackForPropertyAccess debug_build
              (sample_heap sample_arrays) 4 kLoad (Some 6%N) sample_state
            = Done (tt, s1)) as [s1 Hrun]
    by (eexists; vm_compute; reflexivity).
  exists s1. split; [exact Hrun|].
  by apply (ProcessFeedbackForPropertyAccess_once debug_build
              (sample_heap sample_arrays) 4 kLoad (Some 6%N) sample_state s1).
Defined.

(** ** What a whole walk keeps *)

#[local] Instance return_value_hints_grow_preorder :
  PreOrder return_value_hints_grow.
Proof.
  split.
  - intros e. apply Includes_refl.
  - intros e1 e2 e3. unfold return_value_hints_grow.
    rewrite !Includes_spec. set_solver.
Qed.

#[local] Instance broker_grows_preorder : PreOrder broker_grows.
Proof.
  split.
  - intros b. by repeat split.
  - intros b1 b2 b3 (Hf12 & Hs12 & Hw12 & Hm12) (Hf23 & Hs23 & Hw23 & Hm23).
    repeat split; by etransitivity.
Qed.

(** A relation on environments that every way to change one keeps is kept
    by [TraverseBytecode] and by [Run]. *)
Lemma walk_keeps `{RegisterLayout} cfg heap child_Run
  (E : relation Environment) `{!PreOrder E} :
  (forall e v, E e (with_ephemeral_hints v e)) ->
  (forall e h,
     E e (with_return_value_hints (Add h (return_value_hints_ e)) e)) ->
  (forall e h, E e (with_closure_hints h e)) ->
  forall s,
    (forall s', TraverseBytecode cfg heap child_Run s = Done (tt, s') ->
       E (environment_ (serializer s)) (environment_ (serializer s')))
    ∧ (forall h s', Run cfg heap child_Run s = Done (h, s') ->
         E (environment_ (serializer s)) (environment_ (serializer s'))
         ∧ (h = ∅ ∨ h = return_value_hints_ (environment_ (serializer s')))).
Proof.
  intros E_ephemeral E_return E_closure s.
  assert (forall b s',
            TraverseBytecode cfg heap child_Run (MkState (serializer s) b)
              = Done (tt, s') ->
            E (environment_ (serializer s)) (environment_ (serializer s')))
    as Hwalk.
  { intros b s' Hrun. unfold TraverseBytecode in Hrun.
    apply M_bind_inv in Hrun as (e & s1 & [= <- <-] & Hrun).
    apply M_bind_inv in Hrun as ([] & s2 & [= <-] & Hrun).
    apply M_bind_inv in Hrun as ([] & s3 & [= <-] & Hrun).
    apply (keeps_traverse cfg heap child_Run E any_broker (fun _ => True))
      in Hrun as [[HE _] _]; try done.
    by apply Forall_forall. }
  split.
  - intros s'. destruct s as [ser b]. apply Hwalk.
  - intros h s' Hrun. unfold Run in Hrun.
    apply M_bind_inv in Hrun as (e & s1 & [= <- <-] & Hrun).
    apply M_bind_inv in Hrun as (b & s1 & [= <- <-] & Hrun).
    destruct (IsSerializedForCompilation _ _ _).
    { injection Hrun as <- <-. split; [reflexivity|by left]. }
    apply M_bind_inv in Hrun as ([] & s1 & [= <-] & Hrun).
    apply M_bind_inv in Hrun as (f & s2 & [= <- <-] & Hrun).
    apply M_bind_inv in Hrun as ([] & s2 & Hs & Hrun).
    assert (serializer s2 = serializer s) as Hser.
    { destruct (kCollectSourcePositions _); by injection Hs as <-. }
    apply M_bind_inv in Hrun as ([] & s3 & [= <-] & Hrun).
    apply M_bind_inv in Hrun as ([] & s4 & Hs4 & Hrun).
    apply M_bind_inv in Hrun as (e4 & s5 & [= <- <-] & Hrun).
    injection Hrun as <- <-.
    cbn [serializer] in Hs4. rewrite Hser in Hs4.
    split; [by apply Hwalk in Hs4|by right].
Qed.

(** X18: the return value hints only grow.  Over the walk of a function,
    with all its joins, calls and child serializers, the return value
    hints at the end include the ones at the start; [Run] returns either
    the empty hints or the return value hints at the end of the walk. *)
Theorem return_value_hints_only_grow `{RegisterLayout} (cfg : BuildConfig)
  (heap : Heap)
  (child_Run : Serializer -> JSHeapBroker -> Outcome (Hints * JSHeapBroker))
  (s : State) :
  (forall s', TraverseBytecode cfg heap child_Run s = Done (tt, s') ->
     Includes (return_value_hints_ (environment_ (serializer s')))
              (return_value_hints_ (environment_ (serializer s))) = true)
  ∧ (forall h s', Run cfg heap child_Run s = Done (h, s') ->
       Includes (return_value_hints_ (environment_ (serializer s')))
                (return_value_hints_ (environment_ (serializer s))) = true
       ∧ (h = ∅ ∨ h = return_value_hints_ (environment_ (serializer s')))).
Proof.
  apply (walk_keeps cfg heap child_Run return_value_hints_grow).
  - intros e v. apply Includes_refl.
  - intros e h. unfold return_value_hints_grow. simpl.
    rewrite Includes_spec, Add_union. simpl. set_solver.
  - intros e h. apply Includes_refl.
Qed.

Lemma return_value_hints_only_grow_witness :
  exists h s',
    @Run sample_layout debug_build (sample_heap sample_arrays)
      (@RunSerializer sample_layout debug_build (sample_heap sample_arrays) 1)
      (MkState (MkSerializer
                  (Environment_new (sample_heap sample_arrays)
                     (MkSubject sample_function (Some 10%N)))
                  ∅ sample_flags)
               empty_broker)
    = Done (h, s')
    ∧ (h = ∅ ∨ h = return_value_hints_ (environment_ (serializer s'))).
Proof.
  assert (exists h s',
            @Run sample_layout debug_build (sample_heap sample_arrays)
              (@RunSerializer sample_layout debug_build
                 (sample_heap sample_arrays) 1)
              (MkState (MkSerializer
                          (Environment_new (sample_heap sample_arrays)
                             (MkSubject sample_function (Some 10%N)))
                          ∅ sample_flags)
                       empty_broker)
            = Done (h, s')) as (h & s' & Hrun)
    by (eexists _, _; vm_compute; reflexivity).
  exists h, s'. split; [exact Hrun|].
  by apply (@return_value_hints_only_grow sample_layout debug_build
              (sample_heap sample_arrays) _ _) in Hrun as [_ ?].
Defined.

Lemma Run_broker_grows `{RegisterLayout} cfg heap child_Run s h s' :
  (forall child b h b', child_Run child b = Done (h, b') -> broker_grows b b') ->
  Run cfg heap child_Run s = Done (h, s') ->
  broker_grows (broker s) (broker s').
Proof.
  intros Hchild Hrun.
  assert (forall b x, broker_grows b (take_snapshot x b)) as Hsnapshot.
  { intros b x. repeat split; try done. simpl. by apply prefix_app_r. }
  assert (forall b source feedback,
            broker_grows b (SetFeedback source feedback b)) as Hfeedback.
  { intros b source feedback. repeat split; try done. simpl.
    apply dom_insert_subseteq. }
  assert (forall b f, broker_grows b (record_walk f b)) as Hwalk.
  { intros b f. repeat split; try done. simpl. by apply prefix_app_r. }
  unfold Run in Hrun.
  apply M_bind_inv in Hrun as (e & s1 & [= <- <-] & Hrun).
  apply M_bind_inv in Hrun as (b & s1 & [= <- <-] & Hrun).
  destruct (IsSerializedForCompilation _ _ _).
  { by injection Hrun as <- <-. }
  apply M_bind_inv in Hrun as ([] & s1 & [= <-] & Hrun).
  apply M_bind_inv in Hrun as (f & s2 & [= <- <-] & Hrun).
  apply M_bind_inv in Hrun as ([] & s2 & Hs2 & Hrun).
  apply M_bind_inv in Hrun as ([] & s3 & [= <-] & Hrun).
  apply M_bind_inv in Hrun as ([] & s4 & Hs4 & Hrun).
  apply M_bind_inv in Hrun as (e4 & s5 & [= <- <-] & Hrun).
  injection Hrun as <- <-.
  unfold TraverseBytecode in Hs4.
  apply M_bind_inv in Hs4 as (e & s5 & [= <- <-] & Hs4).
  apply M_bind_inv in Hs4 as ([] & s5 & [= <-] & Hs4).
  apply M_bind_inv in Hs4 as ([] & s6 & [= <-] & Hs4).
  apply (keeps_traverse cfg heap child_Run any_environment broker_grows
           (fun _ => True)) in Hs4 as [[_ Hgrow] _]; try done;
    [|by apply Forall_forall].
  cbn [serializer broker environment_] in Hgrow.
  etransitivity; [|exact Hgrow].
  assert (broker_grows (broker s) (broker s2)) as H2.
  { transitivity (SetSerializedForCompilation
                    (shared (function_ (environment_ (serializer s))))
                    (feedback_vector (function_ (environment_ (serializer s))))
                    (broker s)).
    - repeat split; try done. simpl. set_solver.
    - destruct (kCollectSourcePositions _); injection Hs2 as <-;
        [apply Hsnapshot|reflexivity]. }
  etransitivity; [exact H2|].
  etransitivity; [|apply Hwalk].
  etransitivity; [|apply Hsnapshot]. apply Hsnapshot.
Qed.

(** X19: a run of the serializer only adds to the broker.  Whatever the
    function and its callees do, afterwards every source that had
    processed feedback still has some, the snapshots and the walks taken
    before are the beginning of the ones on record, and every mark of a
    serialized function is still there. *)
Theorem RunSerializer_only_adds_to_the_broker `{RegisterLayout}
  (cfg : BuildConfig) (heap : Heap) (fuel : nat) :
  forall (s : Serializer) (b : JSHeapBroker) (h : Hints) (b' : JSHeapBroker),
    RunSerializer cfg heap fuel s b = Done (h, b') ->
    dom (feedback_ b) ⊆ dom (feedback_ b')
    ∧ snapshots_ b `prefix_of` snapshots_ b'
    ∧ walks_ b `prefix_of` walks_ b'
    ∧ serialized_for_compilation_ b ⊆ serialized_for_compilation_ b'.
Proof.
  induction fuel as [|fuel IH]; intros s b h b' Hrun; simpl in Hrun; [done|].
  destruct (Run cfg heap (RunSerializer cfg heap fuel) (MkState s b))
    as [[h' s']| |] eqn:HRun; try discriminate.
  injection Hrun as <- <-.
  by apply (Run_broker_grows cfg heap _ _ _ _ IH) in HRun.
Qed.

Lemma RunSerializer_only_adds_to_the_broker_witness :
  exists h b',
    @RunSerializer sample_layout debug_build (sample_heap sample_arrays) 2
      (MkSerializer
         (Environment_new (sample_heap sample_arrays)
            (MkSubject sample_function (Some 10%N)))
         ∅ sample_flags)
      empty_broker
    = Done (h, b')
    ∧ snapshots_ empty_broker `prefix_of` snapshots_ b'.
Proof.
  assert (exists h b',
            @RunSerializer sample_layout debug_build
              (sample_heap sample_arrays) 2
              (MkSerializer
                 (Environment_new (sample_heap sample_arrays)
                    (MkSubject sample_function (Some 10%N)))
                 ∅ sample_flags)
              empty_broker
            = Done (h, b')) as (h & b' & Hrun)
    by (eexists _, _; vm_compute; reflexivity).
  exists h, b'. split; [exact Hrun|].
  by apply (@RunSerializer_only_adds_to_the_broker sample_layout debug_build
              (sample_heap sample_arrays) 2) in Hrun as (_ & ? & _).
Defined.

(** X20: a function without bytecode has no return value hints.  For a
    closure with a feedback vector whose bytecode array is empty, the
    serializer is built and its run returns the empty hints, with the
    function marked as serialized and the cache of feedback as it was. *)
Theorem Run_on_empty_bytecode `{RegisterLayout} (cfg : BuildConfig)
  (heap : Heap) (fuel : nat) (closure : Handle) (flags : Flags)
  (b : JSHeapBroker) :
  let f := MkBlueprint (function_shared heap closure)
                       (function_feedback_vector heap closure) in
  has_feedback_vector heap closure = true ->
  bytecodes (GetBytecodeArray heap (shared f)) = [] ->
  exists s b1 b',
    Serializer_new heap closure flags b = Done (s, b1)
    ∧ RunSerializer cfg heap (S fuel) s b1 = Done (∅, b')
    ∧ f ∈ serialized_for_compilation_ b'
    ∧ feedback_ b' = feedback_ b.
Proof.
  intros f Hvector Hcode.
  exists (MkSerializer (Environment_new heap (MkSubject f (Some closure)))
            ∅ flags),
         (take_snapshot (JSFunctionRef_Serialize closure) b).
  assert (Serializer_new heap closure flags b
          = Done (MkSerializer
                    (Environment_new heap (MkSubject f (Some closure)))
                    ∅ flags,
                  take_snapshot (JSFunctionRef_Serialize closure) b)) as ->.
  { unfold Serializer_new, CompilationSubject_of_closure, CHECK.
    by rewrite Hvector. }
  cbn [RunSerializer]. unfold Run. mcbv. rewrite M_if.
  destruct (IsSerializedForCompilation _ _ _) eqn:Hmarked.
  { mcbv. eexists. split; [reflexivity|]. split; [reflexivity|].
    split; [|reflexivity].
    unfold IsSerializedForCompilation in Hmarked.
    by apply bool_decide_eq_true in Hmarked. }
  simpl in Hcode.
  destruct (kCollectSourcePositions flags) eqn:Hflag; eexists;
    (split; [reflexivity|]); mrun; cbn [flags_]; rewrite Hflag;
    unfold TraverseBytecode; mrun; unfold Environment_new; simpl;
    rewrite Hcode; simpl; (split; [reflexivity|]); simpl;
    (split; [set_solver|done]).
Qed.

Lemma Run_on_empty_bytecode_witness :
  exists s b1 b',
    Serializer_new
      (sample_heap (fun _ => MkBytecodeArray 1 0 invalid_register [] []))
      10%N sample_flags empty_broker = Done (s, b1)
    ∧ @RunSerializer sample_layout debug_build
        (sample_heap (fun _ => MkBytecodeArray 1 0 invalid_register [] []))
        1 s b1 = Done (∅, b').
Proof.
  destruct (@Run_on_empty_bytecode sample_layout debug_build
              (sample_heap (fun _ => MkBytecodeArray 1 0 invalid_register [] []))
              0 10%N sample_flags empty_broker)
    as (s & b1 & b' & Hnew & Hrun & _); [reflexivity|reflexivity|].
  by exists s, b1, b'.
Defined.
